(** * mcp-spark-documentation: parser, document store, indexer and tools

    A shallow embedding of [parser.py], [database.py], [indexer.py], the
    tools of [server.py] and the [index] command of [cli.py], and the
    properties of the indexing and search subsystem proved on it.

    Conventions of the embedding.
    - Python [str] values are Rocq strings, a character standing for the
      code point of its number, so for a code point below 256. The white
      space of [str.strip] is Python's on these code points. The casing of
      [str.title] is that of the ASCII letters, so [Str.title] is
      [str.title] on the strings [Str.is_ascii] accepts.
    - A [pathlib.Path] is the list of its parts.
    - A [dict] is a [gmap]; the [documents] table is the list of its rows in
      rowid order, the FTS5 index the list of its entries in rowid order.
    - What SQLite's FTS5 engine, the YAML reader and the file system compute
      is taken as a parameter of the section that uses it. *)

From Stdlib Require Import ZArith QArith Qabs Ascii.
From Stdlib Require String.
From stdpp Require Import base option list sorting strings gmap.

Local Open Scope Z_scope.

(** ** models.py *)

Record DocumentMetadata := mkDocumentMetadata {
  md_title : string;
  md_description : option string;
  md_license : option string
}.

Record Document := mkDocument {
  doc_path : string;
  doc_title : string;
  doc_description : option string;
  doc_section : string;
  doc_content : string;
  doc_url : string
}.

Record SearchResult := mkSearchResult {
  sr_path : string;
  sr_title : string;
  sr_url : string;
  sr_snippet : string;
  sr_score : Q;
  sr_section : string
}.

Global Instance Document_eq_dec : EqDecision Document.
Proof. solve_decision. Defined.

(** ** Python string primitives *)

Module Str.

Definition nl : ascii := "010"%char.

Definition is_lower (c : ascii) : bool :=
  let n := nat_of_ascii c in (97 <=? n)%nat && (n <=? 122)%nat.

Definition is_upper (c : ascii) : bool :=
  let n := nat_of_ascii c in (65 <=? n)%nat && (n <=? 90)%nat.

Definition to_upper (c : ascii) : ascii :=
  if is_lower c then ascii_of_nat (nat_of_ascii c - 32) else c.

Definition to_lower (c : ascii) : ascii :=
  if is_upper c then ascii_of_nat (nat_of_ascii c + 32) else c.

(** [str.isspace] of a character, the white space [str.strip] removes: TAB,
    LF, VT, FF, CR, FS, GS, RS, US and the blank, and beyond ASCII the next
    line control U+0085 and the no-break space U+00A0. *)
Definition is_space (c : ascii) : bool :=
  let n := nat_of_ascii c in
  ((9 <=? n)%nat && (n <=? 13)%nat) || ((28 <=? n)%nat && (n <=? 32)%nat)
  || (n =? 133)%nat || (n =? 160)%nat.

(** [str.isascii] *)
Fixpoint is_ascii (s : string) : bool :=
  match s with
  | EmptyString => true
  | String c s' => (nat_of_ascii c <? 128)%nat && is_ascii s'
  end.

Definition is_empty (s : string) : bool :=
  match s with EmptyString => true | String _ _ => false end.

Fixpoint drop (n : nat) (s : string) : string :=
  match n, s with
  | O, _ => s
  | S _, EmptyString => EmptyString
  | S k, String _ s' => drop k s'
  end.

Fixpoint take (n : nat) (s : string) : string :=
  match n, s with
  | O, _ => EmptyString
  | S _, EmptyString => EmptyString
  | S k, String c s' => String c (take k s')
  end.

Definition startswith (s pre : string) : bool := String.prefix pre s.

Definition endswith (s suf : string) : bool :=
  String.prefix (String.rev suf) (String.rev s).

(** [s in t] for strings. *)
Fixpoint contains (sub s : string) : bool :=
  startswith s sub ||
  match s with
  | EmptyString => false
  | String _ s' => contains sub s'
  end.

(** [s.replace(old, new)] for a non-empty [old]: occurrences are replaced
    from left to right and do not overlap; [skip] counts the characters of
    the occurrence being replaced that are still to be passed over. *)
Fixpoint replace_go (old new : string) (skip : nat) (s : string) : string :=
  match s with
  | EmptyString => EmptyString
  | String c s' =>
      match skip with
      | S k => replace_go old new k s'
      | O =>
          if startswith s old
          then new +:+ replace_go old new (String.length old - 1) s'
          else String c (replace_go old new 0 s')
      end
  end.

Definition replace (old new s : string) : string := replace_go old new 0 s.

(** [s.title()] for the ASCII letters: a cased character is upper-cased when
    the character before it is not cased, and lower-cased when it is. The
    letters beyond ASCII are left as they are, where Python cases them too
    (and may change the length: the title of a sharp s is [Ss]); on a string
    [is_ascii] accepts this is [str.title]. *)
Fixpoint title_go (previous_is_cased : bool) (s : string) : string :=
  match s with
  | EmptyString => EmptyString
  | String c s' =>
      if is_lower c then
        String (if previous_is_cased then c else to_upper c) (title_go true s')
      else if is_upper c then
        String (if previous_is_cased then to_lower c else c) (title_go true s')
      else String c (title_go false s')
  end.

Definition title (s : string) : string := title_go false s.

Fixpoint lstrip (s : string) : string :=
  match s with
  | EmptyString => EmptyString
  | String c s' => if is_space c then lstrip s' else s
  end.

Fixpoint rstrip (s : string) : string :=
  match s with
  | EmptyString => EmptyString
  | String c s' =>
      let t := rstrip s' in
      if is_space c && is_empty t then EmptyString else String c t
  end.

Definition strip (s : string) : string := rstrip (lstrip s).

Fixpoint map (f : ascii → ascii) (s : string) : string :=
  match s with
  | EmptyString => EmptyString
  | String c s' => String (f c) (map f s')
  end.

(** ["/".join(parts)] *)
Fixpoint join (sep : string) (l : list string) : string :=
  match l with
  | [] => EmptyString
  | [x] => x
  | x :: l' => x +:+ sep +:+ join sep l'
  end.

(** [s.rfind(c)] for a one-character needle. *)
Fixpoint rfind (c : ascii) (s : string) : option nat :=
  match s with
  | EmptyString => None
  | String d s' =>
      match rfind c s' with
      | Some i => Some (S i)
      | None => if Ascii.eqb c d then Some O else None
      end
  end.

End Str.

(** ** Regular expressions of [_clean_content]

    [re.sub(pattern, "", s)] scans [s] from left to right; where the pattern
    matches, the match is dropped and the scan resumes after it, elsewhere
    the character is kept. None of the four patterns matches the empty
    string. A pattern is given by its matcher: the length of its match at
    the start of the input, if there is one. *)

Module Re.

Definition matcher := string → option nat.

Fixpoint sub_go (m : matcher) (skip : nat) (s : string) : string :=
  match s with
  | EmptyString => EmptyString
  | String c s' =>
      match skip with
      | S k => sub_go m k s'
      | O =>
          match m s with
          | Some (S k) => sub_go m k s'
          | _ => String c (sub_go m 0 s')
          end
      end
  end.

Definition sub (m : matcher) (s : string) : string := sub_go m 0 s.

(** The lazy [.*?] followed by the literal [close]: the number of characters
    passed before the first place where [close] starts. Without DOTALL the
    dot does not match a line feed. *)
Fixpoint lazy_until (close : string) (dotall : bool) (s : string) : option nat :=
  if Str.startswith s close then Some O
  else
    match s with
    | EmptyString => None
    | String c s' =>
        if negb dotall && Ascii.eqb c Str.nl then None
        else S <$> lazy_until close dotall s'
    end.

(** [open .*? close] *)
Definition delimited (open close : string) (dotall : bool) : matcher :=
  λ s,
    if Str.startswith s open then
      n ← lazy_until close dotall (Str.drop (String.length open) s);
      Some (String.length open + n + String.length close)%nat
    else None.

(** [[^>]+] followed by [>]: the run of characters other than [>] ends at the
    first [>]. *)
Fixpoint until_gt (s : string) : option nat :=
  match s with
  | EmptyString => None
  | String c s' =>
      if Ascii.eqb c ">"%char then Some O else S <$> until_gt s'
  end.

(** [\{%.*?%\}] *)
Definition liquid_tag : matcher := delimited "{%" "%}" false.
(** [\{\{.*?\}\}] *)
Definition liquid_output : matcher := delimited "{{" "}}" false.
(** [<!--.*?-->] with [re.DOTALL] *)
Definition html_comment : matcher := delimited "<!--" "-->" true.
(** [<[^>]+>] *)
Definition html_tag : matcher :=
  λ s,
    match s with
    | String "<"%char s' =>
        match until_gt s' with
        | Some (S n) => Some (S n + 2)%nat
        | _ => None
        end
    | _ => None
    end.

End Re.

(** ** parser.py *)

Module Parser.

(** A value of the frontmatter dictionary, as far as [isinstance(_, str)]
    tells them apart. *)
Inductive yaml :=
  | YNull
  | YBool (b : bool)
  | YInt (n : Z)
  | YStr (s : string)
  | YOther.

(** [pathlib]: a path is the list of its parts. *)
Abbreviation path := (list string).

(** An absolute path has the root as its first part. *)
Definition is_absolute (p : path) : bool :=
  match p with
  | root :: _ => Str.startswith root "/"
  | [] => false
  end.

(** [str(path)] *)
Definition path_str (p : path) : string :=
  match p with
  | [] => "."
  | root :: rest =>
      if Str.startswith root "/" then root +:+ Str.join "/" rest
      else Str.join "/" p
  end.

Definition path_name (p : path) : string := default "" (last p).

(** [PurePath.stem]: the name up to its last dot, unless that dot is the
    first or the last character of the name. *)
Definition path_stem (p : path) : string :=
  let name := path_name p in
  match Str.rfind "."%char name with
  | Some i =>
      if (0 <? i)%nat && (i <? String.length name - 1)%nat
      then Str.take i name else name
  | None => name
  end.

(** The parts of [p] after those of [base], when [p] starts with them. *)
Fixpoint strip_parts (p base : path) {struct base} : option path :=
  match base with
  | [] => Some p
  | b :: base' =>
      match p with
      | [] => None
      | x :: p' => if decide (x = b) then strip_parts p' base' else None
      end
  end.

(** [PurePath.relative_to]: [None] stands for the [ValueError] raised when
    [p] is not under [base]: when the parts of [base] are not the first
    parts of [p], or when [base] is the empty path and [p] is absolute. *)
Definition relative_to (p base : path) : option path :=
  match base with
  | [] => if is_absolute p then None else Some p
  | _ => strip_parts p base
  end.

Definition SPARK_DOCS_BASE_URL : string := "https://spark.apache.org/docs/latest".

Definition as_str (v : option yaml) : option string :=
  match v with
  | Some (YStr s) => Some s
  | _ => None
  end.

Definition _extract_metadata (metadata : gmap string yaml) (file_path : path)
  : DocumentMetadata :=
  let title :=
    match as_str (metadata !! "title") with
    | Some t => t
    | None =>
        Str.title (Str.replace "_" " " (Str.replace "-" " " (path_stem file_path)))
    end in
  let description := as_str (metadata !! "description") in
  let license_info := as_str (metadata !! "license") in
  mkDocumentMetadata title description license_info.

Definition _extract_section (relative_path : path) : string :=
  match relative_path with
  | part0 :: _ :: _ => part0
  | _ => "root"
  end.

Definition _compute_url (relative_path : path) : string :=
  let path_str0 :=
    Str.replace ".markdown" "" (Str.replace ".md" "" (path_str relative_path)) in
  let path_str1 :=
    if negb (Str.endswith path_str0 ".html") then path_str0 +:+ ".html"
    else path_str0 in
  SPARK_DOCS_BASE_URL +:+ "/" +:+ path_str1.

Definition remove_liquid_tags : string → string := Re.sub Re.liquid_tag.
Definition remove_liquid_outputs : string → string := Re.sub Re.liquid_output.
Definition remove_html_comments : string → string := Re.sub Re.html_comment.
Definition remove_html_tags : string → string := Re.sub Re.html_tag.

Definition _clean_content (content : string) : string :=
  let content := remove_liquid_tags content in
  let content := remove_liquid_outputs content in
  let content := remove_html_comments content in
  let content := remove_html_tags content in
  Str.strip content.

Section ParseFile.

(** [frontmatter.load]: the metadata dictionary and the body of the file,
    or [None] when it raises (missing or unreadable file, a directory,
    an encoding error, malformed YAML). *)
Variable frontmatter_load : path → option (gmap string yaml * string).

(** [parse_file]: every exception is turned into [None]. *)
Definition parse_file (file_path base_path : path) : option Document :=
  post ← frontmatter_load file_path;
  let metadata := _extract_metadata post.1 file_path in
  relative_path ← relative_to file_path base_path;
  let section := _extract_section relative_path in
  let url := _compute_url relative_path in
  let content := _clean_content post.2 in
  Some {|
    doc_path := path_str relative_path;
    doc_title := md_title metadata;
    doc_description := md_description metadata;
    doc_section := section;
    doc_content := content;
    doc_url := url
  |}.

End ParseFile.

End Parser.

(** ** Exceptions *)

Inductive exn :=
  | ValueError (msg : string)
  | OperationalError.

Inductive result (A : Type) :=
  | Ok (a : A)
  | Raise (e : exn).
Arguments Ok {A} a.
Arguments Raise {A} e.

(** ** database.py *)

Module Database.

(** A row of [documents]; the two timestamps are readings of the clock. *)
Record row := mkRow {
  r_id : Z;
  r_path : string;
  r_title : string;
  r_description : option string;
  r_section : string;
  r_url : string;
  r_content : string;
  r_created_at : Z;
  r_updated_at : Z
}.

(** An entry of [documents_fts]: the rowid and the three indexed columns. *)
Record fts_entry := mkFts {
  f_rowid : Z;
  f_title : string;
  f_description : option string;
  f_content : string
}.

Global Instance row_eq_dec : EqDecision row.
Proof. solve_decision. Defined.
Global Instance fts_entry_eq_dec : EqDecision fts_entry.
Proof. solve_decision. Defined.

(** The database file: the table, the index, and the largest rowid ever
    handed out (the [sqlite_sequence] row that AUTOINCREMENT keeps). *)
Record db := mkDb {
  documents : list row;
  documents_fts : list fts_entry;
  sqlite_sequence : Z
}.

(** The state [_initialise_schema] creates in a fresh file. *)
Definition empty_db : db := mkDb [] [] 0.

(** [INSERT INTO documents_fts(rowid, ...)]: the index is kept by rowid. *)
Fixpoint fts_insert (e : fts_entry) (idx : list fts_entry) : list fts_entry :=
  match idx with
  | [] => [e]
  | x :: idx' =>
      if f_rowid e <? f_rowid x then e :: idx else x :: fts_insert e idx'
  end.

(** [INSERT INTO documents_fts(documents_fts, rowid, ...) VALUES ('delete', ...)]:
    the entry that was indexed under this rowid from these values goes. *)
Fixpoint fts_delete (e : fts_entry) (idx : list fts_entry) : list fts_entry :=
  match idx with
  | [] => []
  | x :: idx' => if decide (x = e) then idx' else x :: fts_delete e idx'
  end.

Definition fts_values (r : row) : fts_entry :=
  mkFts (r_id r) (r_title r) (r_description r) (r_content r).

(** The three triggers of the schema. *)
Definition documents_ai (new : row) (idx : list fts_entry) : list fts_entry :=
  fts_insert (fts_values new) idx.

Definition documents_ad (old : row) (idx : list fts_entry) : list fts_entry :=
  fts_delete (fts_values old) idx.

Definition documents_au (old new : row) (idx : list fts_entry) : list fts_entry :=
  fts_insert (fts_values new) (fts_delete (fts_values old) idx).

Definition has_path (p : string) (r : row) : Prop := r_path r = p.

Global Instance has_path_dec p r : Decision (has_path p r).
Proof. unfold has_path. apply _. Defined.

(** The row [DO UPDATE SET] leaves in the place of [old]: the id, the path
    and [created_at] stay, [updated_at] is CURRENT_TIMESTAMP. *)
Definition updated_row (old : row) (doc : Document) (now : Z) : row := {|
  r_id := r_id old;
  r_path := r_path old;
  r_title := doc_title doc;
  r_description := doc_description doc;
  r_section := doc_section doc;
  r_url := doc_url doc;
  r_content := doc_content doc;
  r_created_at := r_created_at old;
  r_updated_at := now
|}.

(** The row a plain INSERT adds: AUTOINCREMENT hands out the rowid after
    the largest one ever used, both timestamps default to
    CURRENT_TIMESTAMP. *)
Definition inserted_row (seq : Z) (doc : Document) (now : Z) : row := {|
  r_id := seq + 1;
  r_path := doc_path doc;
  r_title := doc_title doc;
  r_description := doc_description doc;
  r_section := doc_section doc;
  r_url := doc_url doc;
  r_content := doc_content doc;
  r_created_at := now;
  r_updated_at := now
|}.

(** [INSERT ... ON CONFLICT(path) DO UPDATE SET ...], [now] being
    CURRENT_TIMESTAMP. The triggers fire with the statement. The INSERT takes
    its rowid from the sequence before the conflict on [path] is seen, so the
    sequence advances on an update too. *)
Definition upsert_document (d : db) (doc : Document) (now : Z) : db :=
  match list_find (has_path (doc_path doc)) (documents d) with
  | Some (i, old) =>
      let new := updated_row old doc now in
      {| documents := <[i := new]> (documents d);
         documents_fts := documents_au old new (documents_fts d);
         sqlite_sequence := sqlite_sequence d + 1 |}
  | None =>
      let new := inserted_row (sqlite_sequence d) doc now in
      {| documents := documents d ++ [new];
         documents_fts := documents_ai new (documents_fts d);
         sqlite_sequence := r_id new |}
  end.

Definition document_of_row (r : row) : Document := {|
  doc_path := r_path r;
  doc_title := r_title r;
  doc_description := r_description r;
  doc_section := r_section r;
  doc_content := r_content r;
  doc_url := r_url r
|}.

(** [SELECT * FROM documents WHERE path = ?] and [fetchone]. *)
Definition get_document (d : db) (p : string) : option Document :=
  document_of_row ∘ snd <$> list_find (has_path p) (documents d).

(** [DELETE FROM documents]: every row goes, and [documents_ad] fires for
    each of them. *)
Definition clear (d : db) : db :=
  {| documents := [];
     documents_fts := foldl (λ idx old, documents_ad old idx) (documents_fts d) (documents d);
     sqlite_sequence := sqlite_sequence d |}.

Definition get_document_count (d : db) : Z := Z.of_nat (length (documents d)).

(** The row behind a path, for its timestamps. *)
Definition row_of_path (d : db) (p : string) : option row :=
  snd <$> list_find (has_path p) (documents d).

(** Sequences of Store operations. *)
Inductive op :=
  | Upsert (doc : Document) (now : Z)
  | Clear.

Definition apply_op (d : db) (o : op) : db :=
  match o with
  | Upsert doc now => upsert_document d doc now
  | Clear => clear d
  end.

Definition run (ops : list op) (d : db) : db := foldl apply_op d ops.

(** The states after each operation of the sequence. *)
Fixpoint trace (ops : list op) (d : db) : list db :=
  match ops with
  | [] => []
  | o :: ops' => apply_op d o :: trace ops' (apply_op d o)
  end.

(** The search index is, entry for entry, the projection of the table: one
    entry per row, under the row's id, holding the row's current title,
    description and content; and no two rows share an id or a path. *)
Definition index_synchronised (d : db) : Prop :=
  documents_fts d = fts_values <$> documents d
  ∧ NoDup (r_id <$> documents d)
  ∧ NoDup (r_path <$> documents d).

(** What every sequence of operations keeps: besides the above, the rows are
    in ascending id order and no id exceeds [sqlite_sequence]. *)
Record well_formed (d : db) : Prop := mkWellFormed {
  wf_index : documents_fts d = fts_values <$> documents d;
  wf_ids : StronglySorted Z.lt (r_id <$> documents d);
  wf_seq : Forall (λ r, r_id r ≤ sqlite_sequence d) (documents d);
  wf_paths : NoDup (r_path <$> documents d)
}.

(** *** search *)

(** A row of the result set of the SELECT: the joined [documents] row and the
    two computed columns. *)
Record hit := mkHit {
  h_doc : row;
  h_snippet : string;
  h_score : Q
}.

(** [ORDER BY score]: ascending, rows of equal score staying in the order in
    which the scan produced them. *)
Fixpoint insert_by_score (h : hit) (l : list hit) : list hit :=
  match l with
  | [] => [h]
  | x :: l' =>
      if Qle_bool (h_score h) (h_score x) then h :: l
      else x :: insert_by_score h l'
  end.

Definition order_by_score (l : list hit) : list hit :=
  foldr insert_by_score [] l.

(** [LIMIT ?]: a negative bound is no bound. *)
Definition sql_limit {A} (limit : Z) (l : list A) : list A :=
  if limit <? 0 then l else take (Z.to_nat limit) l.

(** Python's truth value of the [section] argument. *)
Definition truthy (section : option string) : bool :=
  match section with
  | Some s => negb (Str.is_empty s)
  | None => false
  end.

(** The WHERE clause the code adds for [section]: [AND d.section = ?] when
    [section] is truthy, nothing otherwise. *)
Definition section_clause (section : option string) (r : row) : bool :=
  match section with
  | Some s => if truthy section then bool_decide (r_section r = s) else true
  | None => true
  end.

Definition result_of_hit (h : hit) : SearchResult := {|
  sr_path := r_path (h_doc h);
  sr_title := r_title (h_doc h);
  sr_url := r_url (h_doc h);
  sr_section := r_section (h_doc h);
  sr_snippet := h_snippet h;
  sr_score := Qabs (h_score h)
|}.

(** The order of the result set: by ascending [score] column, rows of equal
    score by ascending document id. *)
Definition sorts_before (a b : hit) : Prop :=
  (h_score a < h_score b)%Q
  ∨ ((h_score a == h_score b)%Q ∧ r_id (h_doc a) < r_id (h_doc b)).

(** The same order read on the scores the results carry: by descending
    relevance, results of equal relevance by ascending document id. *)
Definition ranks_before (a b : hit) : Prop :=
  (Qabs (h_score b) < Qabs (h_score a))%Q
  ∨ ((Qabs (h_score a) == Qabs (h_score b))%Q
     ∧ r_id (h_doc a) < r_id (h_doc b)).

Section Search.

(** FTS5, as the query uses it. [fts5_match q] is the predicate the MATCH
    operator computes for the query string [q] on an indexed entry, or
    [None] when [q] is not a well-formed FTS5 query (the statement then
    fails). [bm25 weights q idx e] is the rank of [e] for [q] in the index
    [idx]; [snippet q e col before after ellipsis tokens] the excerpt. *)
Variable fts5_match : string → option (fts_entry → bool).
Variable bm25 : list Q → string → list fts_entry → fts_entry → Q.
Variable snippet :
  string → fts_entry → nat → string → string → string → nat → string.

(** [FROM documents_fts JOIN documents d ON documents_fts.rowid = d.id
    WHERE documents_fts MATCH ?] *)
Definition fts_join (d : db) (m : fts_entry → bool) : list (fts_entry * row) :=
  e ← filter (λ e, m e) (documents_fts d);
  r ← filter (λ r, r_id r = f_rowid e) (documents d);
  [(e, r)].

Definition select_hit (d : db) (query : string) (er : fts_entry * row) : hit := {|
  h_doc := er.2;
  h_snippet := snippet query er.1 2 "<mark>" "</mark>" "..." 64;
  h_score := bm25 [5#1; 2#1; 1#1]%Q query (documents_fts d) er.1
|}.

(** The rows the statement returns, in order, before [fetchall] turns them
    into results. *)
Definition search_hits (d : db) (query : string) (m : fts_entry → bool)
    (section : option string) (limit : Z) : list hit :=
  sql_limit limit
    (order_by_score
       (select_hit d query <$>
          filter (λ er, section_clause section er.2) (fts_join d m))).

Definition search (d : db) (query : string) (section : option string)
    (limit : Z) : result (list SearchResult) :=
  match fts5_match query with
  | None => Raise OperationalError
  | Some m => Ok (result_of_hit <$> search_hits d query m section limit)
  end.

End Search.

End Database.

(** ** indexer.py *)

Module Indexer.

Import Parser Database.

(** The records [_index_directory] hands to the logger. *)
Inductive log_record :=
  | Info_found (n : nat)
  | Debug_indexed (p : string)
  | Warning_failed_to_parse (file_path : path)
  | Info_indexed (n : Z).

(** What the indexer works on: its database, the log, and the number of
    clock readings taken so far. *)
Record state := mkState {
  database : db;
  log : list log_record;
  ticks : nat
}.

Definition logged (r : log_record) (st : state) : state :=
  {| database := database st; log := log st ++ [r]; ticks := ticks st |}.

Section IndexDirectory.

(** The file system: [Path.exists], [Path.rglob] and the reader of
    frontmatter files; and the clock, by the number of the reading. *)
Variable path_exists : path → bool.
Variable rglob : path → string → list path.
Variable frontmatter_load : path → option (gmap string yaml * string).
Variable current_timestamp : nat → Z.

(** The body of the loop over [md_files]. *)
Definition index_file (docs_path : path) (acc : state * Z) (file_path : path)
  : state * Z :=
  let '(st, indexed_count) := acc in
  match parse_file frontmatter_load file_path docs_path with
  | Some document =>
      let st := {|
        database :=
          upsert_document (database st) document (current_timestamp (ticks st));
        log := log st;
        ticks := S (ticks st)
      |} in
      (logged (Debug_indexed (doc_path document)) st, indexed_count + 1)
  | None => (logged (Warning_failed_to_parse file_path) st, indexed_count)
  end.

Definition _index_directory (st : state) (docs_path : path)
  : result Z * state :=
  if negb (path_exists docs_path) then
    let msg := "Documentation path does not exist: " +:+ path_str docs_path in
    (Raise (ValueError msg), st)
  else
    let indexed_count := 0 in
    let md_files := rglob docs_path "*.md" ++ rglob docs_path "*.markdown" in
    let st := logged (Info_found (length md_files)) st in
    let '(st, indexed_count) :=
      foldl (index_file docs_path) (st, indexed_count) md_files in
    let st := logged (Info_indexed indexed_count) st in
    (Ok indexed_count, st).

Definition index_from_path (st : state) (docs_path : path) : result Z * state :=
  _index_directory st docs_path.

(** The same pass, told as a fold over the outcomes of the parser: the
    documents that parsed, each with the clock reading of its upsert, and
    one log record per file. *)
Definition parsed (docs_path : path) (files : list path) : list Document :=
  omap (λ f, parse_file frontmatter_load f docs_path) files.

Definition upserts (t0 : nat) (docs : list Document) : list op :=
  imap (λ k doc, Upsert doc (current_timestamp (t0 + k))) docs.

Definition file_record (docs_path : path) (f : path) : log_record :=
  match parse_file frontmatter_load f docs_path with
  | Some document => Debug_indexed (doc_path document)
  | None => Warning_failed_to_parse f
  end.

End IndexDirectory.

End Indexer.

(** ** The specification's wording of two derivations

    Written from the specification, to be compared with [_extract_metadata]
    and [_compute_url] above. *)

Module Spec.

Import Parser.

(** "derive from the filename by replacing [-]/[_] with spaces and
    title-casing each word" *)
Definition dash_to_space (c : ascii) : ascii :=
  if Ascii.eqb c "-"%char || Ascii.eqb c "_"%char then " "%char else c.



(** "strip [.md]/[.markdown] extension from the relative path" *)
Definition strip_extension (s : string) : string :=
  if Str.endswith s ".md" then Str.take (String.length s - 3) s
  else if Str.endswith s ".markdown" then Str.take (String.length s - 9) s
  else s.

(** "append [.html] if not already present, and prefix with a configured
    documentation base URL" *)
Definition derive_url (relative_path : path) : string :=
  let s := strip_extension (path_str relative_path) in
  let s := if Str.endswith s ".html" then s else s +:+ ".html" in
  SPARK_DOCS_BASE_URL +:+ "/" +:+ s.

(** "templating directives of the forms [{%...%}] and [{{...}}] (non-greedy,
    single-line)", "HTML comments ([<!--...-->], which may span multiple
    lines)": a match of [n] characters at the start of [s] is [open], then
    the shortest run after which [close] starts, then [close]; unless
    [multiline], the run holds no line feed. *)
Definition delimited_match (open close : string) (multiline : bool)
    (s : string) (n : nat) : Prop :=
  Str.startswith s open = true
  ∧ ∃ b, n = (String.length open + b + String.length close)%nat
    ∧ let rest := Str.drop (String.length open) s in
      Str.startswith (Str.drop b rest) close = true
      ∧ ∀ k, (k < b)%nat →
          Str.startswith (Str.drop k rest) close = false
          ∧ (multiline = false → String.get k rest ≠ Some Str.nl).

(** "HTML tags": [<], one or more characters other than [>], then [>]. *)
Definition tag_match (s : string) (n : nat) : Prop :=
  ∃ s' b, s = String "<"%char s' ∧ n = (b + 2)%nat ∧ (1 ≤ b)%nat
    ∧ String.get b s' = Some ">"%char
    ∧ ∀ k, (k < b)%nat → String.get k s' ≠ Some ">"%char.

(** "then trim leading/trailing whitespace": [t] is [s] without a run of
    white space at its start and one at its end, and neither begins nor ends
    with white space. *)
Definition blank (s : string) : Prop :=
  ∀ k c, String.get k s = Some c → Str.is_space c = true.

Definition trimmed (s t : string) : Prop :=
  ∃ leading trailing,
    s = leading +:+ t +:+ trailing
    ∧ blank leading ∧ blank trailing
    ∧ (∀ c, String.get 0 t = Some c → Str.is_space c = false)
    ∧ (∀ c, String.get (String.length t - 1) t = Some c
            → Str.is_space c = false).

(** "every result of [search(q, s)] has [section == s], and the result set
    is a subset of [search(q, absent)]", for every present [s]. *)
Definition section_filter_correctness : Prop :=
  ∀ fts5_match bm25 snippet d q (s : string) (n : Z) rs,
    Database.search fts5_match bm25 snippet d q (Some s) n = Ok rs →
    Forall (λ r, sr_section r = s) rs
    ∧ ∃ unfiltered,
        Database.search fts5_match bm25 snippet d q None n = Ok unfiltered
        ∧ rs ⊆ unfiltered.

End Spec.

(** ** Sample data *)

Module Sample.

Import Parser Database.

(** A small stand-in for FTS5: a query matches an entry when it occurs in one
    of the three columns, the empty query is refused, and the rank is minus
    the sum of the weights of the columns in which the query occurs. *)
Definition occurs (q : string) (col : string) : bool := Str.contains q col.

Definition matches (q : string) (e : fts_entry) : bool :=
  occurs q (f_title e) || occurs q (default "" (f_description e))
  || occurs q (f_content e).

Definition fts5_match (q : string) : option (fts_entry → bool) :=
  if Str.is_empty q then None else Some (matches q).

Definition bm25 (weights : list Q) (q : string) (idx : list fts_entry)
    (e : fts_entry) : Q :=
  let w k := default 1%Q (weights !! k) in
  let col (k : nat) (text : string) := if occurs q text then w k else 0%Q in
  - (col 0%nat (f_title e) + col 1%nat (default "" (f_description e))
     + col 2%nat (f_content e)).

Definition snippet (q : string) (e : fts_entry) (col : nat)
    (before after ellipsis : string) (tokens : nat) : string :=
  Str.take tokens (f_content e).

Definition doc1 : Document := {|
  doc_path := "doc1.md";
  doc_title := "Spark Streaming";
  doc_description := Some "Streaming guide";
  doc_section := "streaming";
  doc_content := "This document covers Spark Streaming concepts";
  doc_url := "https://example.com/doc1.html"
|}.

Definition doc2 : Document := {|
  doc_path := "doc2.md";
  doc_title := "Spark SQL";
  doc_description := Some "SQL guide";
  doc_section := "sql";
  doc_content := "This document covers Spark SQL features";
  doc_url := "https://example.com/doc2.html"
|}.

(** [doc1] under new contents. *)
Definition doc1' : Document := {|
  doc_path := "doc1.md";
  doc_title := "Structured Streaming";
  doc_description := None;
  doc_section := "streaming";
  doc_content := "Updated content";
  doc_url := "https://example.com/doc1.html"
|}.

Definition two_docs : db :=
  run [Upsert doc1 100; Upsert doc2 101] empty_db.

(** A documentation tree with one file that parses and one that does not. *)
Definition docs_path : path := ["tmp"; "docs"].

Definition path_exists (p : path) : bool := bool_decide (p = docs_path).

Definition rglob (p : path) (pattern : string) : list path :=
  if bool_decide (p = docs_path ∧ pattern = "*.md")
  then [["tmp"; "docs"; "sql-ref"; "syntax.md"]; ["tmp"; "docs"; "broken.md"]]
  else [].

Definition frontmatter_load (p : path) : option (gmap string yaml * string) :=
  if bool_decide (p = ["tmp"; "docs"; "sql-ref"; "syntax.md"])
  then Some ({["title" := YStr "SQL Syntax"]}, "<b>Select</b> statements")
  else None.

(** The file that parses, and the document it is parsed into. *)
Definition syntax_file : path := ["tmp"; "docs"; "sql-ref"; "syntax.md"].

Definition syntax_doc : Document := {|
  doc_path := "sql-ref/syntax.md";
  doc_title := "SQL Syntax";
  doc_description := None;
  doc_section := "sql-ref";
  doc_content := "Select statements";
  doc_url := "https://spark.apache.org/docs/latest/sql-ref/syntax.html"
|}.

Definition current_timestamp (n : nat) : Z := 1000 + Z.of_nat n.

Definition fresh : Indexer.state := Indexer.mkState empty_db [] 0.

(** A file system for the clone: whether the repository has been cloned
    into the temporary directory. Cloning succeeds when [git_works]. *)
Definition tmp : path := ["/"; "tmp"; "tmpdir"].

Definition cloned_exists (cloned : bool) (p : path) : bool :=
  cloned && bool_decide (p = tmp ++ ["spark"; "docs"]).

Definition cloned_rglob (cloned : bool) (p : path) (pattern : string)
  : list path :=
  if cloned && bool_decide (p = tmp ++ ["spark"; "docs"] ∧ pattern = "*.md")
  then [tmp ++ ["spark"; "docs"; "sql-ref"; "syntax.md"]]
  else [].

Definition cloned_load (cloned : bool) (p : path)
  : option (gmap string yaml * string) :=
  if cloned && bool_decide (p = tmp ++ ["spark"; "docs"; "sql-ref"; "syntax.md"])
  then Some ({["title" := YStr "SQL Syntax"]}, "<b>Select</b> statements")
  else None.

Definition mkdtemp (cloned : bool) : path * bool := (tmp, cloned).

Definition cleanup (p : path) (cloned : bool) : bool := false.

Definition git (git_works : bool) (cmd : list string) (cloned : bool)
  : bool * bool :=
  (git_works, git_works || cloned).

(** The body of the normalization example. *)
Definition jekyll_page : string :=
  "{% include x.html %}" +:+ String Str.nl
    ("Hello {{ v }}" +:+ String Str.nl "World").

End Sample.

(** ** indexer.py, continued: cloning and rebuilding *)

Module Git.

Import Parser Database.

Definition SPARK_REPO : string := "https://github.com/apache/spark.git".
Definition DOCS_PATH : string := "docs".

(** [str] of a POSIX path, absolute or relative. *)
Definition posix_str (p : path) : string :=
  match p with
  | "/" :: rest => "/" +:+ Str.join "/" rest
  | _ => path_str p
  end.

(** The log of the indexer, with the records of cloning and rebuilding next
    to those of [_index_directory]. *)
Inductive log_record :=
  | Info_clearing
  | Info_cloning
  | Info_sparse_checkout
  | Info_cloned
  | Indexing (r : Indexer.log_record).

Record state := mkState {
  database : db;
  log : list log_record;
  ticks : nat
}.

Definition logged (r : log_record) (st : state) : state :=
  {| database := database st; log := log st ++ [r]; ticks := ticks st |}.

Inductive error :=
  | CalledProcessError (cmd : list string)
  | Failed (e : exn).

Inductive outcome (A : Type) :=
  | Returned (a : A)
  | Raised (e : error).
Arguments Returned {A} a.
Arguments Raised {A} e.

(** The [git clone] command line. *)
Definition clone_command (target_path : path) (branch : string) (shallow : bool)
  : list string :=
  let cmd := ["git"; "clone"] in
  let cmd :=
    if shallow then cmd ++ ["--depth"; "1"; "--filter=blob:none"; "--sparse"]
    else cmd in
  cmd ++ ["--branch"; branch; SPARK_REPO; posix_str target_path].

Definition sparse_checkout_command (target_path : path) : list string :=
  ["git"; "-C"; posix_str target_path; "sparse-checkout"; "set"; DOCS_PATH].

Section IndexFromGit.

(** The file system is a state of its own. [subprocess_run cmd fs] is the
    exit status of the command ([true] for zero) and the file system it
    leaves; [mkdtemp] makes the temporary directory and [cleanup] removes it
    when the [with] block is left. *)
Variable FS : Type.
Variable path_exists : FS → path → bool.
Variable rglob : FS → path → string → list path.
Variable frontmatter_load : FS → path → option (gmap string yaml * string).
Variable current_timestamp : nat → Z.
Variable mkdtemp : FS → path * FS.
Variable cleanup : path → FS → FS.
Variable subprocess_run : list string → FS → bool * FS.

(** [subprocess.run(cmd, check=True)] *)
Definition run_checked (cmd : list string) (fs : FS) : outcome unit * FS :=
  let '(ok, fs) := subprocess_run cmd fs in
  (if ok then Returned tt else Raised (CalledProcessError cmd), fs).

Definition _clone_repository (target_path : path) (branch : string)
    (shallow : bool) (st : state) (fs : FS) : outcome unit * state * FS :=
  let cmd := clone_command target_path branch shallow in
  let st := logged Info_cloning st in
  match run_checked cmd fs with
  | (Raised e, fs) => (Raised e, st, fs)
  | (Returned _, fs) =>
      if shallow then
        let st := logged Info_sparse_checkout st in
        match run_checked (sparse_checkout_command target_path) fs with
        | (Raised e, fs) => (Raised e, st, fs)
        | (Returned _, fs) => (Returned tt, logged Info_cloned st, fs)
        end
      else (Returned tt, logged Info_cloned st, fs)
  end.

(** [_index_directory] on the file system [fs]; its log records are
    appended to the log. *)
Definition _index_directory (st : state) (fs : FS) (docs_path : path)
  : outcome Z * state :=
  let '(r, inner) :=
    Indexer._index_directory (path_exists fs) (rglob fs) (frontmatter_load fs)
      current_timestamp
      (Indexer.mkState (database st) [] (ticks st)) docs_path in
  let st := {|
    database := Indexer.database inner;
    log := log st ++ (Indexing <$> Indexer.log inner);
    ticks := Indexer.ticks inner
  |} in
  (match r with Ok n => Returned n | Raise e => Raised (Failed e) end, st).

Definition index_from_git (st : state) (fs : FS) (branch : string)
    (shallow : bool) : outcome Z * state * FS :=
  let '(temp_dir, fs) := mkdtemp fs in
  let repo_path := temp_dir ++ ["spark"] in
  match _clone_repository repo_path branch shallow st fs with
  | (Raised e, st, fs) => (Raised e, st, cleanup temp_dir fs)
  | (Returned _, st, fs) =>
      let '(r, st) := _index_directory st fs (repo_path ++ [DOCS_PATH]) in
      (r, st, cleanup temp_dir fs)
  end.

Definition rebuild_index (st : state) (fs : FS) (branch : string)
  : outcome Z * state * FS :=
  let st := logged Info_clearing st in
  let st := {|
    database := clear (database st); log := log st; ticks := ticks st
  |} in
  index_from_git st fs branch true.

End IndexFromGit.

End Git.

(** ** server.py *)

Module Server.

Import Database.

(** The values handed to [json.dumps]. *)
Local Unset Elimination Schemes.
Inductive json :=
  | JNull
  | JInt (n : Z)
  | JNumber (x : Q)
  | JString (s : string)
  | JArray (items : list json)
  | JObject (members : list (string * json)).
Local Set Elimination Schemes.

Definition json_of_option (o : option string) : json :=
  match o with
  | Some s => JString s
  | None => JNull
  end.

(** The server: whether [_database] is set, and the database file at
    [DEFAULT_DB_PATH] ([None] while there is no such file). *)
Record server := mkServer {
  _database : bool;
  db_file : option db
}.

(** [get_database]: the first call creates the database file, with the
    schema, unless it is there. *)
Definition get_database (sv : server) : db * server :=
  if _database sv then (default empty_db (db_file sv), sv)
  else
    let d := default empty_db (db_file sv) in
    (d, {| _database := true; db_file := Some d |}).

(** The members of the "results" array of an answer. *)
Definition results_of (answer : json) : list json :=
  match answer with
  | JObject members =>
      match list_find (λ kv, kv.1 = "results") members with
      | Some (_, (_, JArray items)) => items
      | _ => []
      end
  | _ => []
  end.

Section Tools.

Variable fts5_match : string → option (fts_entry → bool).
Variable bm25 : list Q → string → list fts_entry → fts_entry → Q.
Variable snippet :
  string → fts_entry → nat → string → string → string → nat → string.
(** [round(x, ndigits)] on floats, and [json.dumps(obj, indent=...)]. *)
Variable round : Q → Z → Q.
Variable json_dumps : json → option Z → string.

Definition result_json (r : SearchResult) : json :=
  JObject [
    ("title", JString (sr_title r));
    ("url", JString (sr_url r));
    ("path", JString (sr_path r));
    ("section", JString (sr_section r));
    ("snippet", JString (sr_snippet r));
    ("relevance_score", JNumber (round (sr_score r) 4))
  ].

(** The dictionary [_search_documentation_impl] serialises, and the
    [indent] it passes. *)
Definition search_answer (d : db) (query : string) (section : option string)
    (limit : Z) : result (json * option Z) :=
  let limit := Z.min (Z.max 1 limit) 50 in
  match search fts5_match bm25 snippet d query section limit with
  | Raise e => Raise e
  | Ok results =>
      match results with
      | [] =>
          Ok (JObject [
                ("message",
                 JString ("No results found for query: '" +:+ query +:+ "'"));
                ("results", JArray [])
              ], None)
      | _ =>
          Ok (JObject [
                ("query", JString query);
                ("section_filter", json_of_option section);
                ("result_count", JInt (Z.of_nat (length results)));
                ("results", JArray (result_json <$> results))
              ], Some 2)
      end
  end.

Definition _search_documentation_impl (sv : server) (query : string)
    (section : option string) (limit : Z) : result string * server :=
  let '(d, sv) := get_database sv in
  (match search_answer d query section limit with
   | Ok (answer, indent) => Ok (json_dumps answer indent)
   | Raise e => Raise e
   end, sv).

(** The dictionary [_read_documentation_impl] serialises. *)
Definition read_answer (d : db) (p : string) : json * option Z :=
  match get_document d p with
  | None =>
      (JObject [
         ("error", JString ("Document not found: " +:+ p));
         ("suggestion",
          JString "Use search_documentation to find valid document paths.")
       ], None)
  | Some document =>
      (JObject [
         ("path", JString (doc_path document));
         ("title", JString (doc_title document));
         ("description", json_of_option (doc_description document));
         ("section", JString (doc_section document));
         ("url", JString (doc_url document));
         ("content", JString (doc_content document))
       ], Some 2)
  end.

Definition _read_documentation_impl (sv : server) (p : string)
  : string * server :=
  let '(d, sv) := get_database sv in
  let '(answer, indent) := read_answer d p in
  (json_dumps answer indent, sv).

Definition search_documentation := _search_documentation_impl.
Definition read_documentation := _read_documentation_impl.

End Tools.

End Server.

(** ** cli.py *)

Module Cli.

Import Parser Database.

(** The [argparse.Namespace] of the [index] command. *)
Record args := mkArgs {
  a_database : option string;
  a_branch : string;
  a_rebuild : bool
}.

Inductive log_record :=
  | Info_using_database (db_path : path)
  | Info_indexed (count : Z)
  | From_indexer (r : Git.log_record).

(** [Path.parent]: the root is its own parent. *)
Definition parent (p : path) : path :=
  match p with
  | ["/"] => p
  | _ => take (length p - 1) p
  end.

Section Commands.

Variable FS : Type.
Variable path_exists : FS → path → bool.
Variable rglob : FS → path → string → list path.
Variable frontmatter_load : FS → path → option (gmap string yaml * string).
Variable current_timestamp : nat → Z.
Variable mkdtemp : FS → path * FS.
Variable cleanup : path → FS → FS.
Variable subprocess_run : list string → FS → bool * FS.
(** [Path.mkdir(parents=True, exist_ok=True)], [Path(s)], and the default
    place of the database. *)
Variable mkdir : path → FS → FS.
Variable Path : string → path.
Variable DEFAULT_DB_PATH : path.

(** The machine: the database files by path, the rest of the file system,
    the log, and the number of clock readings taken. A path of [files] holds
    a database with the schema, any other path that a database is opened at
    holds nothing yet; what the command runs on [fs] (making directories,
    cloning into a temporary directory) leaves the database files alone. *)
Record world := mkWorld {
  files : gmap path db;
  fs : FS;
  log : list log_record;
  ticks : nat
}.

Definition logged (r : log_record) (w : world) : world :=
  {| files := files w; fs := fs w; log := log w ++ [r]; ticks := ticks w |}.

(** [Path(args.database) if args.database else DEFAULT_DB_PATH] *)
Definition db_path_of (a : args) : path :=
  match a_database a with
  | Some s => if Str.is_empty s then DEFAULT_DB_PATH else Path s
  | None => DEFAULT_DB_PATH
  end.

(** [DocumentDatabase(db_path)]: the file is created, with the schema, when
    it is not there. *)
Definition open_database (db_path : path) (fl : gmap path db)
  : db * gmap path db :=
  let d := default empty_db (fl !! db_path) in
  (d, <[db_path := d]> fl).

Definition cmd_index (a : args) (w : world) : Git.outcome Z * world :=
  let db_path := db_path_of a in
  let w := {|
    files := files w; fs := mkdir (parent db_path) (fs w);
    log := log w; ticks := ticks w
  |} in
  let w := logged (Info_using_database db_path) w in
  let '(d, fl) := open_database db_path (files w) in
  let st := Git.mkState d [] (ticks w) in
  let '(r, st, fs') :=
    if a_rebuild a then
      Git.rebuild_index FS path_exists rglob frontmatter_load current_timestamp
        mkdtemp cleanup subprocess_run st (fs w) (a_branch a)
    else
      Git.index_from_git FS path_exists rglob frontmatter_load
        current_timestamp mkdtemp cleanup subprocess_run st (fs w)
        (a_branch a) true in
  let w := {|
    files := <[db_path := Git.database st]> fl;
    fs := fs';
    log := log w ++ (From_indexer <$> Git.log st);
    ticks := Git.ticks st
  |} in
  match r with
  | Git.Returned count => (Git.Returned 0, logged (Info_indexed count) w)
  | Git.Raised e => (Git.Raised e, w)
  end.

End Commands.

End Cli.

(** ** Paths and their strings *)

Module Pathlib.

(** What [pathlib] keeps as a part of a relative path: a name that is not
    empty, is not the dot, and holds no slash. *)
Definition is_name (s : string) : Prop :=
  s ≠ "" ∧ s ≠ "." ∧ Str.contains "/" s = false.

(** The text of a string before its first slash, if it has one. *)
Fixpoint first_component (s : string) : option string :=
  match s with
  | EmptyString => None
  | String c s' =>
      if Ascii.eqb c "/" then Some EmptyString
      else String c <$> first_component s'
  end.

End Pathlib.

(** ** The store seen as a finite map

    What the lookups of a store amount to: the map from each stored path to
    its document, and what an operation does to that map. *)

Module MapView.

Import Database.

Definition binding (r : row) : string * Document := (r_path r, document_of_row r).

Definition view (d : db) : gmap string Document :=
  list_to_map (binding <$> documents d).

Definition step (m : gmap string Document) (o : op) : gmap string Document :=
  match o with
  | Upsert doc _ => <[doc_path doc := doc]> m
  | Clear => ∅
  end.

Definition after (ops : list op) (m : gmap string Document) : gmap string Document :=
  foldl step m ops.

(** The clock readings of a sequence of operations, in order. *)
Definition readings (ops : list op) : list Z :=
  omap (λ o, match o with Upsert _ now => Some now | Clear => None end) ops.

(** Two rows that stand for the same stored document: same id, same path,
    same time of creation. *)
Definition same_identity (r0 r : row) : Prop :=
  r_id r0 = r_id r ∧ r_path r0 = r_path r ∧ r_created_at r0 = r_created_at r.

End MapView.

(** ** Ranking *)

Module Ranking.

Import Database.

(** The order [ORDER BY score] sorts by, ties left aside. *)
Definition score_le (a b : hit) : Prop := (h_score a <= h_score b)%Q.

End Ranking.

(** * Properties *)

(** ** The document store *)

Section Store.

Import Database.

Implicit Types (d : db) (r old new : row) (e : fts_entry) (doc : Document).

Lemma fts_insert_snoc e idx :
  Forall (λ x, f_rowid x ≤ f_rowid e) idx → fts_insert e idx = idx ++ [e].
Proof.
  induction 1 as [|x idx Hx _ IH]; simpl; [done|].
  rewrite (proj2 (Z.ltb_ge _ _) Hx). by rewrite IH.
Qed.

Lemma fts_insert_middle e l1 l2 :
  Forall (λ x, f_rowid x ≤ f_rowid e) l1 →
  Forall (λ x, f_rowid e < f_rowid x) l2 →
  fts_insert e (l1 ++ l2) = l1 ++ e :: l2.
Proof.
  intros H1 H2. induction H1 as [|x l1 Hx _ IH]; simpl.
  - destruct H2 as [|y l2 Hy _]; simpl; [done|].
    by rewrite (proj2 (Z.ltb_lt _ _) Hy).
  - rewrite (proj2 (Z.ltb_ge _ _) Hx). by rewrite IH.
Qed.

Lemma fts_delete_middle e l1 l2 :
  e ∉ l1 → fts_delete e (l1 ++ e :: l2) = l1 ++ l2.
Proof.
  induction l1 as [|x l1 IH]; simpl; intros Hn.
  - by rewrite decide_True.
  - apply not_elem_of_cons in Hn as [Hne Hn].
    rewrite decide_False by done. by rewrite IH.
Qed.

(** Deleting the rows one by one, as [DELETE FROM documents] does, empties an
    index that mirrors them. *)
Lemma clear_index rows :
  foldl (λ idx old, documents_ad old idx) (fts_values <$> rows) rows = [].
Proof.
  induction rows as [|r rows IH]; simpl; [done|].
  unfold documents_ad at 2. simpl. by rewrite decide_True.
Qed.

Lemma fts_values_rowid r : f_rowid (fts_values r) = r_id r.
Proof. done. Qed.

(** In a table sorted by id, the row found at [i] splits it in lower and
    higher ids. *)
Lemma sorted_split (l1 l2 : list row) r :
  StronglySorted Z.lt (r_id <$> (l1 ++ r :: l2)) →
  Forall (λ x, r_id x < r_id r) l1 ∧ Forall (λ x, r_id r < r_id x) l2.
Proof.
  rewrite fmap_app, fmap_cons. intros Hs.
  apply StronglySorted_app in Hs as (H12 & _ & Hs2).
  apply StronglySorted_cons in Hs2 as [Hr _]. split.
  - apply Forall_forall. intros x Hx. apply H12; [|left].
    apply list_elem_of_fmap. eauto.
  - rewrite Forall_fmap in Hr. done.
Qed.

(** The shape of the table around the row [list_find] returns. *)
Lemma find_split p (rows : list row) i old :
  list_find (has_path p) rows = Some (i, old) →
  ∃ l1 l2, rows = l1 ++ old :: l2 ∧ length l1 = i ∧ r_path old = p
           ∧ Forall (λ x, r_path x ≠ p) l1.
Proof.
  intros (Hi & Hp & Hbefore)%list_find_Some.
  exists (take i rows), (drop (S i) rows). split_and!.
  - by rewrite take_drop_middle.
  - apply length_take_le. apply lookup_lt_Some in Hi. lia.
  - done.
  - apply Forall_forall. intros x (j & Hj & Hlt)%elem_of_take.
    by apply (Hbefore j).
Qed.

Lemma empty_db_well_formed : well_formed empty_db.
Proof. split; simpl; [done|constructor|constructor|constructor]. Qed.

Lemma upsert_well_formed d doc now :
  well_formed d → well_formed (upsert_document d doc now).
Proof.
  intros [Hidx Hids Hseq Hpaths]. unfold upsert_document.
  destruct (list_find _ _) as [[i old]|] eqn:Hfind.
  - destruct (find_split _ _ _ _ Hfind) as (l1 & l2 & Hrows & Hlen & Hp & _).
    set (new := updated_row old doc now).
    assert (Hins : <[i:=new]> (documents d) = l1 ++ new :: l2).
    { rewrite Hrows, <- Hlen. rewrite insert_app_r_alt by lia.
      by rewrite Nat.sub_diag. }
    split; simpl; rewrite Hins.
    + unfold documents_au. rewrite Hidx, Hrows.
      destruct (sorted_split l1 l2 old) as [Hlo Hhi]; [by rewrite <- Hrows|].
      rewrite fmap_app, fmap_cons, fts_delete_middle.
      * rewrite fts_insert_middle; [by rewrite fmap_app, fmap_cons| |].
        -- rewrite Forall_fmap. eapply Forall_impl; [exact Hlo|].
           simpl. intros; lia.
        -- rewrite Forall_fmap. eapply Forall_impl; [exact Hhi|]. done.
      * intros (x & Hx & Hin)%list_elem_of_fmap.
        rewrite Forall_forall in Hlo. specialize (Hlo x Hin).
        apply (f_equal f_rowid) in Hx. simpl in Hx. lia.
    + rewrite Hrows in Hids. by rewrite fmap_app, fmap_cons in *.
    + rewrite Hrows in Hseq. apply Forall_app in Hseq as [H1 H2].
      apply Forall_cons in H2 as [H2 H3].
      assert (Hup : ∀ x, r_id x ≤ sqlite_sequence d
                         → r_id x ≤ sqlite_sequence d + 1) by (intros; lia).
      apply Forall_app. split; [by eapply Forall_impl|].
      apply Forall_cons. split; [by apply Hup|by eapply Forall_impl].
    + rewrite Hrows in Hpaths. by rewrite fmap_app, fmap_cons in *.
  - apply list_find_None in Hfind.
    split; simpl.
    + unfold documents_ai. rewrite Hidx, fts_insert_snoc.
      * by rewrite fmap_app.
      * rewrite Forall_fmap. eapply Forall_impl; [exact Hseq|].
        simpl. intros; lia.
    + rewrite fmap_app. apply StronglySorted_app_2; [|done|repeat constructor].
      intros x1 x2 (r & -> & Hr)%list_elem_of_fmap Hx2.
      apply list_elem_of_singleton in Hx2 as ->. simpl.
      rewrite Forall_forall in Hseq. specialize (Hseq r Hr). simpl in Hseq. lia.
    + apply Forall_app. split.
      * eapply Forall_impl; [exact Hseq|]. simpl. intros; lia.
      * apply Forall_singleton. simpl. lia.
    + rewrite fmap_app. apply NoDup_app. split_and!; [done| |apply NoDup_singleton].
      intros x (r & -> & Hr)%list_elem_of_fmap Hx2.
      apply list_elem_of_singleton in Hx2.
      rewrite Forall_forall in Hfind. by apply (Hfind r Hr).
Qed.

Lemma clear_well_formed d : well_formed d → well_formed (clear d).
Proof.
  intros [Hidx _ _ _]. split; simpl; [|constructor..].
  rewrite Hidx. apply clear_index.
Qed.

Lemma apply_op_well_formed d o : well_formed d → well_formed (apply_op d o).
Proof.
  destruct o; simpl; auto using upsert_well_formed, clear_well_formed.
Qed.

Lemma run_well_formed ops d : well_formed d → well_formed (run ops d).
Proof.
  revert d. induction ops as [|o ops IH]; intros d Hd; simpl; [done|].
  apply IH. by apply apply_op_well_formed.
Qed.

Lemma trace_well_formed ops d :
  well_formed d → Forall well_formed (trace ops d).
Proof.
  revert d. induction ops as [|o ops IH]; intros d Hd; simpl; [constructor|].
  constructor; [|apply IH]; by apply apply_op_well_formed.
Qed.

Lemma strictly_sorted_NoDup (l : list Z) : StronglySorted Z.lt l → NoDup l.
Proof.
  induction 1 as [|x l _ IH Hx]; constructor; [|done].
  intros Hin. rewrite Forall_forall in Hx. specialize (Hx x Hin). lia.
Qed.

Lemma well_formed_synchronised d : well_formed d → index_synchronised d.
Proof.
  intros [Hidx Hids _ Hpaths]. split_and!; [done| |done].
  by apply strictly_sorted_NoDup.
Qed.

Lemma upsert_existing d doc now i old :
  list_find (has_path (doc_path doc)) (documents d) = Some (i, old) →
  documents (upsert_document d doc now) = <[i := updated_row old doc now]> (documents d)
  ∧ list_find (has_path (doc_path doc)) (documents (upsert_document d doc now))
    = Some (i, updated_row old doc now).
Proof.
  intros Hfind. unfold upsert_document. rewrite Hfind. simpl.
  split; [done|].
  apply list_find_Some in Hfind as (Hi & Hp & Hbefore).
  apply list_find_Some. split_and!.
  - apply list_lookup_insert_eq. by eapply lookup_lt_Some.
  - done.
  - intros j y Hj Hlt. rewrite list_lookup_insert_ne in Hj by lia.
    by apply (Hbefore j).
Qed.

Lemma upsert_fresh d doc now :
  list_find (has_path (doc_path doc)) (documents d) = None →
  documents (upsert_document d doc now) = documents d ++ [inserted_row (sqlite_sequence d) doc now]
  ∧ list_find (has_path (doc_path doc)) (documents (upsert_document d doc now))
    = Some (length (documents d), inserted_row (sqlite_sequence d) doc now).
Proof.
  intros Hfind. unfold upsert_document. rewrite Hfind. simpl.
  split; [done|].
  apply list_find_None in Hfind. apply list_find_Some. split_and!.
  - by apply list_lookup_middle.
  - done.
  - intros j y Hj Hlt. rewrite lookup_app_l in Hj by done.
    rewrite Forall_forall in Hfind. apply Hfind.
    by eapply list_elem_of_lookup_2.
Qed.

Lemma document_of_updated_row old doc now :
  r_path old = doc_path doc → document_of_row (updated_row old doc now) = doc.
Proof. destruct doc. unfold document_of_row. simpl. by intros ->. Qed.

Lemma document_of_inserted_row (seq : Z) doc now :
  document_of_row (inserted_row seq doc now) = doc.
Proof. by destruct doc. Qed.

Lemma filter_absent_path p (rows : list row) :
  p ∉ r_path <$> rows → filter (has_path p) rows = [].
Proof.
  induction rows as [|x rows IH]; simpl; [done|].
  intros [Hne Hn]%not_elem_of_cons.
  rewrite filter_cons_False; [by apply IH|]. unfold has_path. congruence.
Qed.

Lemma unique_path (rows : list row) r :
  NoDup (r_path <$> rows) → r ∈ rows →
  length (filter (has_path (r_path r)) rows) = 1%nat.
Proof.
  induction rows as [|x rows IH]; simpl; intros Hnd Hin.
  - by apply elem_of_nil in Hin.
  - apply NoDup_cons in Hnd as [Hx Hnd].
    apply elem_of_cons in Hin as [->|Hin].
    + rewrite filter_cons_True by done.
      by rewrite filter_absent_path.
    + rewrite filter_cons_False; [by apply IH|].
      unfold has_path. intros Heq. apply Hx. rewrite Heq.
      by apply list_elem_of_fmap_2.
Qed.

(** C1. After each operation of any sequence of upserts and clears, starting
    from the empty store, the search index holds exactly one entry per stored
    document, under the document's id and with its current title,
    description and content. In the state [d] such a sequence leads to: an
    upsert of a stored path puts the entry built from the new fields in the
    place of the old one, an upsert of a new path adds one entry, and clear
    leaves no entry. *)
Theorem index_synchronised_after_each_operation (ops : list op) :
  Forall index_synchronised (trace ops empty_db)
  ∧ let d := run ops empty_db in
    (∀ doc now,
       let entry id :=
         mkFts id (doc_title doc) (doc_description doc) (doc_content doc) in
       match list_find (has_path (doc_path doc)) (documents d) with
       | Some (i, old) =>
           documents_fts d !! i = Some (fts_values old)
           ∧ documents_fts (upsert_document d doc now)
             = <[i := entry (r_id old)]> (documents_fts d)
       | None =>
           documents_fts (upsert_document d doc now)
           = documents_fts d ++ [entry (sqlite_sequence d + 1)]
       end)
    ∧ documents_fts (clear d) = [].
Proof.
  split.
  - eapply Forall_impl; [apply trace_well_formed, empty_db_well_formed|].
    apply well_formed_synchronised.
  - pose proof (run_well_formed ops _ empty_db_well_formed) as Hd.
    simpl. set (d := run ops empty_db) in *. split.
    + intros doc now.
      pose proof (upsert_well_formed d doc now Hd) as [Hidx' _ _ _].
      destruct Hd as [Hidx _ _ _].
      destruct (list_find _ _) as [[i old]|] eqn:Hfind.
      * destruct (upsert_existing d doc now i old Hfind) as [Hdocs _].
        apply list_find_Some in Hfind as (Hi & _ & _). split.
        -- by rewrite Hidx, list_lookup_fmap, Hi.
        -- by rewrite Hidx', Hdocs, list_fmap_insert, Hidx.
      * destruct (upsert_fresh d doc now Hfind) as [Hdocs _].
        by rewrite Hidx', Hdocs, fmap_app, Hidx.
    + destruct Hd as [Hidx _ _ _]. simpl. rewrite Hidx. apply clear_index.
Qed.

(** After an upsert the row found for the document's path is the one the
    upsert wrote. *)
Lemma find_after_upsert d doc now :
  ∃ i r,
    list_find (has_path (doc_path doc)) (documents (upsert_document d doc now))
    = Some (i, r)
    ∧ document_of_row r = doc.
Proof.
  destruct (list_find (has_path (doc_path doc)) (documents d))
    as [[i old]|] eqn:Hfind.
  - destruct (upsert_existing d doc now i old Hfind) as [_ ->].
    eexists _, _. split; [done|].
    apply list_find_Some in Hfind as (_ & Hp & _).
    by apply document_of_updated_row.
  - destruct (upsert_fresh d doc now Hfind) as [_ ->].
    eexists _, _. split; [done|]. apply document_of_inserted_row.
Qed.

(** C2. Whatever the store holds, after [upsert_document d doc] the lookup of
    the document's path returns the document itself: path, title,
    description, section, url and content (the timestamps are columns of the
    row only). *)
Theorem upsert_get_round_trip d doc now :
  get_document (upsert_document d doc now) (doc_path doc) = Some doc.
Proof.
  unfold get_document.
  destruct (find_after_upsert d doc now) as (i & r & -> & Hdoc).
  simpl. by rewrite Hdoc.
Qed.

(** C3. In a store reached by any sequence of operations, two upserts under
    the same path in succession leave exactly one row for that path, holding
    the second document; the second upsert does not change the count, sets
    [updated_at] to its own clock reading and leaves [created_at] as the
    first upsert left it. *)
Theorem upsert_same_path_twice (ops : list op) doc1 doc2 (t1 t2 : Z) :
  doc_path doc1 = doc_path doc2 →
  let d1 := upsert_document (run ops empty_db) doc1 t1 in
  let d2 := upsert_document d1 doc2 t2 in
  length (filter (has_path (doc_path doc2)) (documents d2)) = 1%nat
  ∧ get_document d2 (doc_path doc2) = Some doc2
  ∧ get_document_count d2 = get_document_count d1
  ∧ ∃ r1 r2,
      row_of_path d1 (doc_path doc2) = Some r1
      ∧ row_of_path d2 (doc_path doc2) = Some r2
      ∧ r_updated_at r2 = t2
      ∧ r_created_at r2 = r_created_at r1.
Proof.
  intros Hpath d1 d2.
  assert (Hwf2 : well_formed d2).
  { apply upsert_well_formed, upsert_well_formed, run_well_formed,
      empty_db_well_formed. }
  assert (∃ i r1, list_find (has_path (doc_path doc2)) (documents d1) = Some (i, r1))
    as (i & r1 & Hfind1).
  { rewrite <- Hpath. subst d1.
    destruct (list_find (has_path (doc_path doc1)) (documents (run ops empty_db)))
      as [[j old]|] eqn:Hfind.
    - destruct (upsert_existing _ doc1 t1 j old Hfind) as [_ ->]. eauto.
    - destruct (upsert_fresh _ doc1 t1 Hfind) as [_ ->]. eauto. }
  destruct (upsert_existing d1 doc2 t2 i r1 Hfind1) as [Hdocs Hfind2].
  fold d2 in Hdocs, Hfind2. split_and!.
  - pose proof Hfind2 as (Hi & Hp & _)%list_find_Some.
    unfold has_path in Hp. rewrite <- Hp.
    apply unique_path; [apply Hwf2|]. by eapply list_elem_of_lookup_2.
  - unfold get_document. rewrite Hfind2. simpl.
    apply list_find_Some in Hfind1 as (_ & Hp & _).
    by rewrite document_of_updated_row.
  - unfold get_document_count. by rewrite Hdocs, length_insert.
  - exists r1, (updated_row r1 doc2 t2). unfold row_of_path.
    by rewrite Hfind1, Hfind2.
Qed.

End Store.

(** ** Ranked search *)

Section Ordering.

Import Database.

Implicit Types (h x : hit) (l : list hit).

Lemma insert_by_score_perm h l : insert_by_score h l ≡ₚ h :: l.
Proof.
  induction l as [|x l IH]; simpl; [done|].
  destruct (Qle_bool _ _); [done|]. rewrite IH. apply Permutation_swap.
Qed.

Lemma order_by_score_perm l : order_by_score l ≡ₚ l.
Proof.
  induction l as [|h l IH]; simpl; [done|].
  by rewrite insert_by_score_perm, IH.
Qed.

Lemma elem_of_order_by_score h l : h ∈ order_by_score l ↔ h ∈ l.
Proof. by rewrite order_by_score_perm. Qed.

(** A row that the scan produced before all of [l] goes in front of the rows
    of [l] it does not outrank. *)
Lemma insert_by_score_sorted h l :
  Forall (λ x, r_id (h_doc h) < r_id (h_doc x)) l →
  StronglySorted sorts_before l →
  StronglySorted sorts_before (insert_by_score h l).
Proof.
  intros Hid Hs. induction Hs as [|x l Hs IH Hx]; simpl.
  - repeat constructor.
  - apply Forall_cons in Hid as [Hhx Hid].
    destruct (Qle_bool (h_score h) (h_score x)) eqn:Hle.
    + apply Qle_bool_iff in Hle. constructor; [by constructor|].
      assert (Hhead : sorts_before h x).
      { apply Qle_lt_or_eq in Hle as [?|?]; [by left|by right]. }
      constructor; [done|].
      rewrite Forall_forall in Hx, Hid |- *. intros y Hy.
      specialize (Hx y Hy). specialize (Hid y Hy).
      destruct Hx as [Hlt|[Heq _]].
      * left. eapply Qle_lt_trans; eauto.
      * apply Qle_lt_or_eq in Hle as [Hlt|Heq'].
        -- left. by rewrite <- Heq.
        -- right. split; [by rewrite Heq'|done].
    + assert (Hlt : (h_score x < h_score h)%Q).
      { apply Qnot_le_lt. intros Hle'. apply Qle_bool_iff in Hle'. congruence. }
      constructor; [by apply IH|].
      rewrite Forall_forall. intros y Hy.
      rewrite insert_by_score_perm in Hy. apply elem_of_cons in Hy as [->|Hy].
      * by left.
      * rewrite Forall_forall in Hx. by apply Hx.
Qed.

Lemma order_by_score_sorted l :
  StronglySorted (λ a b, r_id (h_doc a) < r_id (h_doc b)) l →
  StronglySorted sorts_before (order_by_score l).
Proof.
  induction 1 as [|h l _ IH Hh]; simpl; [constructor|].
  apply insert_by_score_sorted; [|done].
  rewrite Forall_forall in Hh |- *. intros y Hy. apply Hh.
  by apply elem_of_order_by_score.
Qed.

Lemma StronglySorted_take {A} (R : relation A) n (l : list A) :
  StronglySorted R l → StronglySorted R (take n l).
Proof.
  intros Hs. revert n. induction Hs as [|x l _ IH Hx]; intros [|n]; simpl;
    try constructor; [apply IH|].
  rewrite Forall_forall in Hx |- *. intros y Hy%elem_of_take.
  destruct Hy as (i & Hi & _). apply Hx. by eapply list_elem_of_lookup_2.
Qed.

Lemma StronglySorted_filter {A} (R : relation A) (P : A → Prop)
    `{∀ a, Decision (P a)} (l : list A) :
  StronglySorted R l → StronglySorted R (filter P l).
Proof.
  induction 1 as [|x l _ IH Hx]; [constructor|].
  rewrite filter_cons. destruct (decide (P x)); [|done].
  constructor; [done|].
  rewrite Forall_forall in Hx |- *. intros y [_ Hy]%list_elem_of_filter. auto.
Qed.

Lemma StronglySorted_sql_limit {A} (R : relation A) limit (l : list A) :
  StronglySorted R l → StronglySorted R (sql_limit limit l).
Proof.
  unfold sql_limit. destruct (limit <? 0); [done|]. apply StronglySorted_take.
Qed.

Lemma sql_limit_subseteq {A} limit (l : list A) : sql_limit limit l ⊆ l.
Proof.
  unfold sql_limit. destruct (limit <? 0); [done|].
  apply sublist_subseteq, sublist_take.
Qed.

Lemma sql_limit_all {A} limit (l : list A) :
  limit < 0 ∨ Z.of_nat (length l) ≤ limit → sql_limit limit l = l.
Proof.
  unfold sql_limit. intros Hl. destruct (limit <? 0) eqn:Hneg; [done|].
  apply Z.ltb_ge in Hneg. apply take_ge. lia.
Qed.

(** Two orders that agree on the elements of a list sort it alike. *)
Lemma StronglySorted_on {A} (R R' : relation A) (P : A → Prop) (l : list A) :
  (∀ a b, P a → P b → R a b → R' a b) →
  Forall P l → StronglySorted R l → StronglySorted R' l.
Proof.
  intros HR HP Hs. induction Hs as [|x l _ IH Hx]; [constructor|].
  apply Forall_cons in HP as [Hpx HP]. constructor; [by apply IH|].
  rewrite Forall_forall in Hx, HP |- *. intros y Hy. apply HR; auto.
Qed.

Lemma sorts_before_ranks_before a b :
  (h_score a <= 0)%Q → (h_score b <= 0)%Q → sorts_before a b → ranks_before a b.
Proof.
  intros Ha Hb. unfold sorts_before, ranks_before.
  rewrite !Qabs_neg by done. intros [Hlt|[Heq Hid]].
  - left. by apply Qopp_lt_compat.
  - right. split; [by rewrite Heq|done].
Qed.

End Ordering.

Section SearchFacts.

Import Database.

Variable fts5_match : string → option (fts_entry → bool).
Variable bm25 : list Q → string → list fts_entry → fts_entry → Q.
Variable snippet :
  string → fts_entry → nat → string → string → string → nat → string.

Abbreviation search := (search fts5_match bm25 snippet).
Abbreviation search_hits := (search_hits bm25 snippet).
Abbreviation select_hit := (select_hit bm25 snippet).

Implicit Types (d : db) (m : fts_entry → bool) (q : string)
  (section : option string) (limit : Z).

Lemma filter_absent_id (rows : list row) (id : Z) :
  id ∉ r_id <$> rows → filter (λ r, r_id r = id) rows = [].
Proof.
  induction rows as [|x rows IH]; simpl; [done|].
  intros [Hne Hn]%not_elem_of_cons.
  rewrite filter_cons_False by congruence. by apply IH.
Qed.

Lemma filter_unique_id (rows : list row) r0 :
  NoDup (r_id <$> rows) → r0 ∈ rows →
  filter (λ r, r_id r = r_id r0) rows = [r0].
Proof.
  induction rows as [|x rows IH]; simpl; intros Hnd Hin.
  - by apply elem_of_nil in Hin.
  - apply NoDup_cons in Hnd as [Hx Hnd].
    apply elem_of_cons in Hin as [->|Hin].
    + rewrite filter_cons_True by done. by rewrite filter_absent_id.
    + rewrite filter_cons_False; [by apply IH|].
      intros Heq. apply Hx. rewrite Heq. by apply list_elem_of_fmap_2.
Qed.

Lemma fts_join_rows (rows l : list row) m :
  NoDup (r_id <$> rows) → (∀ r, r ∈ l → r ∈ rows) →
  (e ← filter (λ e, m e) (fts_values <$> l);
   r ← filter (λ r, r_id r = f_rowid e) rows;
   [(e, r)])
  = (λ r, (fts_values r, r)) <$> filter (λ r, m (fts_values r)) l.
Proof.
  intros Hnd. induction l as [|r0 l IH]; intros Hsub; [done|].
  rewrite fmap_cons, !filter_cons. simpl.
  assert (Hin : r0 ∈ rows) by (apply Hsub; left).
  assert (IHl : ∀ r, r ∈ l → r ∈ rows) by (intros; apply Hsub; by right).
  specialize (IH IHl).
  destruct (decide (m (fts_values r0))).
  - rewrite bind_cons, IH. simpl.
    change (f_rowid (fts_values r0)) with (r_id r0).
    by rewrite (filter_unique_id _ _ Hnd Hin).
  - apply IH.
Qed.

(** In a well-formed store the join yields, in table order, every row whose
    index entry matches, next to that entry. *)
Lemma fts_join_well_formed d m :
  well_formed d →
  fts_join d m
  = (λ r, (fts_values r, r)) <$> filter (λ r, m (fts_values r)) (documents d).
Proof.
  intros Hwf. unfold fts_join. rewrite (wf_index d Hwf).
  apply fts_join_rows; [|done]. apply strictly_sorted_NoDup, Hwf.
Qed.

(** Before the sort, the rows of the result set are in ascending id order. *)
Lemma scan_in_id_order d q m section :
  well_formed d →
  StronglySorted (λ a b, r_id (h_doc a) < r_id (h_doc b))
    (select_hit d q <$> filter (λ er, section_clause section er.2) (fts_join d m)).
Proof.
  intros Hwf. rewrite (fts_join_well_formed d m Hwf).
  eapply (StronglySorted_fmap _ (λ a b : fts_entry * row, r_id a.2 < r_id b.2));
    [done|].
  apply StronglySorted_filter.
  eapply (StronglySorted_fmap _ (λ a b : row, r_id a < r_id b)); [done|].
  apply StronglySorted_filter.
  pose proof (wf_ids d Hwf) as Hs. clear -Hs.
  induction (documents d) as [|x l IH]; [constructor|].
  rewrite fmap_cons in Hs. apply StronglySorted_cons in Hs as [Hx Hs].
  constructor; [by apply IH|]. by rewrite Forall_fmap in Hx.
Qed.

Lemma search_hits_sorted d q m section limit :
  well_formed d → StronglySorted sorts_before (search_hits d q m section limit).
Proof.
  intros Hwf. unfold Database.search_hits.
  apply StronglySorted_sql_limit, order_by_score_sorted.
  by apply scan_in_id_order.
Qed.

Lemma search_hits_section d q m (s : string) limit :
  s ≠ "" →
  Forall (λ h, r_section (h_doc h) = s) (search_hits d q m (Some s) limit).
Proof.
  intros Hs. rewrite Forall_forall. intros h Hh.
  apply sql_limit_subseteq in Hh. rewrite elem_of_order_by_score in Hh.
  apply list_elem_of_fmap in Hh as (er & -> & Her).
  apply list_elem_of_filter in Her as [Hsec _]. simpl.
  unfold section_clause, truthy in Hsec. destruct s; [done|]. simpl in Hsec.
  by apply bool_decide_unpack in Hsec.
Qed.

Lemma search_hits_subseteq d q m section limit :
  search_hits d q m section limit ⊆ search_hits d q m None (-1).
Proof.
  intros h Hh. apply sql_limit_subseteq in Hh.
  rewrite elem_of_order_by_score in Hh.
  unfold Database.search_hits, sql_limit. simpl.
  apply elem_of_order_by_score.
  apply list_elem_of_fmap in Hh as (er & -> & Her).
  apply list_elem_of_fmap_2.
  apply list_elem_of_filter in Her as [_ Her].
  by apply list_elem_of_filter.
Qed.

(** C4, as amended. For a section [s] other than the empty string and a
    well-formed query, every result of [search q s limit] has exactly the
    section [s], and is a result of the search without section run without a
    bound on the number of rows (a negative limit, or any limit that is at
    least the number of matches). *)
Theorem section_filter_correct d q (s : string) limit m :
  s ≠ "" →
  fts5_match q = Some m →
  ∃ rs unfiltered,
    search d q (Some s) limit = Ok rs
    ∧ search d q None (-1) = Ok unfiltered
    ∧ Forall (λ r, sr_section r = s) rs
    ∧ rs ⊆ unfiltered
    ∧ ∀ k, Z.of_nat (length unfiltered) ≤ k → search d q None k = Ok unfiltered.
Proof.
  intros Hs Hq. unfold Database.search. rewrite Hq.
  eexists _, _. split_and!; [done|done| | |].
  - rewrite Forall_fmap. apply (search_hits_section d q m s limit Hs).
  - intros r (h & -> & Hh)%list_elem_of_fmap. apply list_elem_of_fmap_2.
    by apply (search_hits_subseteq d q m (Some s) limit).
  - intros k Hk. do 2 f_equal. rewrite length_fmap in Hk.
    unfold Database.search_hits in *.
    rewrite (sql_limit_all (-1)) in * by lia. by apply sql_limit_all; right.
Qed.

(** C10. The empty string as section is no filter: the search returns what
    it returns when the section is absent, namely the matching rows of every
    section, ranked and cut at the limit. *)
Theorem empty_section_is_no_filter d q limit :
  search d q (Some "") limit = search d q None limit
  ∧ ∀ m, search_hits d q m (Some "") limit
         = sql_limit limit (order_by_score (select_hit d q <$> fts_join d m)).
Proof.
  split; [reflexivity|]. intros m. unfold Database.search_hits.
  do 3 f_equal. induction (fts_join d m) as [|er l IH]; [done|].
  rewrite filter_cons_True by done. by rewrite IH.
Qed.

(** FTS5's [bm25] counts downwards: "BM25 returns negative scores". *)
Hypothesis bm25_nonpositive :
  ∀ q idx e, (bm25 [5#1; 2#1; 1#1] q idx e <= 0)%Q.

Lemma search_hits_nonpositive d q m section limit :
  Forall (λ h, (h_score h <= 0)%Q) (search_hits d q m section limit).
Proof.
  rewrite Forall_forall. intros h Hh. apply sql_limit_subseteq in Hh.
  rewrite elem_of_order_by_score in Hh.
  apply list_elem_of_fmap in Hh as (er & -> & _). apply bm25_nonpositive.
Qed.

(** C5. In a store reached by any sequence of operations, a search with a
    well-formed query returns its results by descending relevance score,
    results of equal score by ascending document id, and no score is
    negative; a query FTS5 refuses makes the search fail. *)
Theorem search_ranked (ops : list op) q section limit :
  let d := run ops empty_db in
  match fts5_match q with
  | Some m =>
      let hits := search_hits d q m section limit in
      search d q section limit = Ok (result_of_hit <$> hits)
      ∧ StronglySorted ranks_before hits
      ∧ StronglySorted (λ a b, (sr_score b <= sr_score a)%Q) (result_of_hit <$> hits)
      ∧ Forall (λ r, (0 <= sr_score r)%Q) (result_of_hit <$> hits)
  | None => search d q section limit = Raise OperationalError
  end.
Proof.
  intros d. unfold Database.search.
  destruct (fts5_match q) as [m|]; [|done].
  set (hits := search_hits d q m section limit).
  assert (Hranked : StronglySorted ranks_before hits).
  { eapply StronglySorted_on;
      [|apply (search_hits_nonpositive d q m section limit)|].
    - intros a b Ha Hb. by apply sorts_before_ranks_before.
    - apply search_hits_sorted, run_well_formed, empty_db_well_formed. }
  split_and!; [done|done| |].
  - eapply StronglySorted_fmap; [|exact Hranked].
    intros a b [Hlt|[Heq _]]; simpl.
    + by apply Qlt_le_weak.
    + rewrite Heq. apply Qle_refl.
  - rewrite Forall_fmap. apply Forall_forall. intros h _. apply Qabs_nonneg.
Qed.

End SearchFacts.

(** ** Instances of the search properties *)

Section SearchInstances.

Import Database.

Abbreviation sample_search :=
  (search Sample.fts5_match Sample.bm25 Sample.snippet).

Lemma sample_bm25_nonpositive q idx e :
  (Sample.bm25 [5#1; 2#1; 1#1] q idx e <= 0)%Q.
Proof.
  unfold Sample.bm25.
  destruct (Sample.occurs q (f_title e)),
    (Sample.occurs q (default "" (f_description e))),
    (Sample.occurs q (f_content e)); by vm_compute.
Qed.

Lemma upsert_same_path_twice_witness :
  doc_path Sample.doc1 = doc_path Sample.doc1'
  ∧ let d1 :=
      upsert_document (run [Upsert Sample.doc2 99] empty_db) Sample.doc1 100 in
    let d2 := upsert_document d1 Sample.doc1' 105 in
    length (filter (has_path (doc_path Sample.doc1')) (documents d2)) = 1%nat
    ∧ get_document d2 (doc_path Sample.doc1') = Some Sample.doc1'
    ∧ get_document_count d2 = get_document_count d1
    ∧ ∃ r1 r2,
        row_of_path d1 (doc_path Sample.doc1') = Some r1
        ∧ row_of_path d2 (doc_path Sample.doc1') = Some r2
        ∧ r_updated_at r2 = 105
        ∧ r_created_at r2 = r_created_at r1.
Proof.
  split; [reflexivity|].
  apply (upsert_same_path_twice [Upsert Sample.doc2 99] Sample.doc1 Sample.doc1'
           100 105).
  reflexivity.
Defined.

Lemma section_filter_correct_witness :
  "sql" ≠ ""
  ∧ Sample.fts5_match "Spark" = Some (Sample.matches "Spark")
  ∧ ∃ rs unfiltered,
      sample_search Sample.two_docs "Spark" (Some "sql") 1 = Ok rs
      ∧ sample_search Sample.two_docs "Spark" None (-1) = Ok unfiltered
      ∧ Forall (λ r, sr_section r = "sql") rs
      ∧ rs ⊆ unfiltered
      ∧ ∀ k, Z.of_nat (length unfiltered) ≤ k →
             sample_search Sample.two_docs "Spark" None k = Ok unfiltered.
Proof.
  split; [discriminate|]. split; [reflexivity|].
  apply (section_filter_correct Sample.fts5_match Sample.bm25 Sample.snippet
           Sample.two_docs "Spark" "sql" 1 (Sample.matches "Spark"));
    [discriminate|reflexivity].
Defined.

Lemma search_ranked_witness :
  (∀ q idx e, (Sample.bm25 [5#1; 2#1; 1#1] q idx e <= 0)%Q)
  ∧ let d := run [Upsert Sample.doc1 100; Upsert Sample.doc2 101] empty_db in
    match Sample.fts5_match "Spark" with
    | Some m =>
        let hits :=
          search_hits Sample.bm25 Sample.snippet d "Spark" m None 10 in
        sample_search d "Spark" None 10 = Ok (result_of_hit <$> hits)
        ∧ StronglySorted ranks_before hits
        ∧ StronglySorted (λ a b, (sr_score b <= sr_score a)%Q)
            (result_of_hit <$> hits)
        ∧ Forall (λ r, (0 <= sr_score r)%Q) (result_of_hit <$> hits)
    | None => sample_search d "Spark" None 10 = Raise OperationalError
    end.
Proof.
  split; [exact sample_bm25_nonpositive|].
  exact (search_ranked Sample.fts5_match Sample.bm25 Sample.snippet
           sample_bm25_nonpositive
           [Upsert Sample.doc1 100; Upsert Sample.doc2 101] "Spark" None 10).
Defined.

(** The claim C4 as the specification words it fails: with the empty string
    as section the search filters nothing, and returns documents of other
    sections. *)
Lemma section_filter_counterexample : ¬ Spec.section_filter_correctness.
Proof.
  intros Hspec.
  destruct (Hspec Sample.fts5_match Sample.bm25 Sample.snippet
              Sample.two_docs "Spark" "" 10 _ eq_refl) as [Hsec _].
  vm_compute in Hsec. apply Forall_cons in Hsec as [Hsec _]. discriminate.
Qed.

(** With a bound on the rows, a filtered search can return a document that
    the unfiltered search under the same bound cuts off. *)
Example limit_cuts_unfiltered_search :
  ∃ r1 r2,
    sample_search Sample.two_docs "Spark" (Some "sql") 1 = Ok [r2]
    ∧ sample_search Sample.two_docs "Spark" None 1 = Ok [r1]
    ∧ sr_path r2 = "doc2.md" ∧ sr_path r1 = "doc1.md".
Proof. by eexists _, _. Qed.

End SearchInstances.

(** ** The indexer *)

Section IndexerFacts.

Import Parser Database Indexer.

Variable path_exists : path → bool.
Variable rglob : path → string → list path.
Variable frontmatter_load : path → option (gmap string yaml * string).
Variable current_timestamp : nat → Z.

Abbreviation index_file := (index_file frontmatter_load current_timestamp).
Abbreviation parsed := (parsed frontmatter_load).
Abbreviation upserts := (upserts current_timestamp).
Abbreviation file_record := (file_record frontmatter_load).

Lemma upserts_cons t0 doc docs :
  upserts t0 (doc :: docs) = Upsert doc (current_timestamp t0) :: upserts (S t0) docs.
Proof.
  unfold Indexer.upserts. rewrite imap_cons, Nat.add_0_r. f_equal.
  apply imap_ext. intros k x _. simpl.
  by replace (t0 + S k)%nat with (S (t0 + k)) by lia.
Qed.

Lemma parsed_cons docs_path f files :
  parsed docs_path (f :: files)
  = match parse_file frontmatter_load f docs_path with
    | Some document => document :: parsed docs_path files
    | None => parsed docs_path files
    end.
Proof. unfold Indexer.parsed. simpl. by destruct (parse_file _ _ _). Qed.

(** The loop over [md_files]: no file stops it, each one leaves its record,
    and the counter grows by the number of files that parsed. *)
Lemma index_files docs_path files st (n : Z) :
  ∃ st',
    foldl (index_file docs_path) (st, n) files
    = (st', n + Z.of_nat (length (parsed docs_path files)))
    ∧ database st'
      = run (upserts (ticks st) (parsed docs_path files)) (database st)
    ∧ log st' = log st ++ (file_record docs_path <$> files).
Proof.
  revert st n. induction files as [|f files IH]; intros st n.
  - exists st. simpl. split_and!; [f_equal; lia|done|by rewrite app_nil_r].
  - rewrite parsed_cons, fmap_cons. unfold Indexer.file_record at 1.
    cbn [foldl]. unfold Indexer.index_file at 2.
    destruct (parse_file frontmatter_load f docs_path) as [document|] eqn:Hp.
    + edestruct IH as (st' & -> & Hdb & Hlog). exists st'. split_and!.
      * f_equal. rewrite length_cons. lia.
      * rewrite Hdb, upserts_cons. done.
      * rewrite Hlog. simpl. by rewrite <- app_assoc.
    + edestruct IH as (st' & -> & Hdb & Hlog). exists st'. split_and!.
      * done.
      * by rewrite Hdb.
      * rewrite Hlog. simpl. by rewrite <- app_assoc.
Qed.

(** C6. On a path that exists, [_index_directory] takes the files [rglob]
    finds under the two markdown patterns, parses every one of them, upserts
    each document that parsed, in order, and returns their number; every file
    leaves one log record, a warning when it did not parse, and the files
    after it are processed all the same. On a path that does not exist it
    raises [ValueError] and the store is as it was. *)
Theorem index_directory_counts (st : state) (docs_path : path) :
  let run_it :=
    _index_directory path_exists rglob frontmatter_load current_timestamp in
  if path_exists docs_path then
    let md_files := rglob docs_path "*.md" ++ rglob docs_path "*.markdown" in
    let docs := parsed docs_path md_files in
    ∃ st',
      run_it st docs_path = (Ok (Z.of_nat (length docs)), st')
      ∧ length docs
        = length (filter (λ f, is_Some (parse_file frontmatter_load f docs_path))
                    md_files)
      ∧ database st' = run (upserts (ticks st) docs) (database st)
      ∧ log st'
        = log st ++ [Info_found (length md_files)]
          ++ (file_record docs_path <$> md_files)
          ++ [Info_indexed (Z.of_nat (length docs))]
  else
    ∃ msg, run_it st docs_path = (Raise (ValueError msg), st).
Proof.
  intros run_it. subst run_it. unfold _index_directory.
  destruct (path_exists docs_path); simpl; [|eauto].
  set (md_files := rglob docs_path "*.md" ++ rglob docs_path "*.markdown").
  destruct (index_files docs_path md_files
              (logged (Info_found (length md_files)) st) 0)
    as (st' & -> & Hdb & Hlog).
  eexists. split_and!.
  - done.
  - clear. induction md_files as [|f files IH]; [done|].
    rewrite parsed_cons, filter_cons.
    destruct (parse_file frontmatter_load f docs_path).
    + rewrite decide_True by eauto. simpl. by rewrite IH.
    + rewrite decide_False; [done|]. by intros [? ?].
  - simpl. by rewrite Hdb.
  - simpl. rewrite Hlog. simpl. by rewrite <- !app_assoc.
Qed.

End IndexerFacts.

(** ** The parser *)

Section StringFacts.

Implicit Types (s t close : string) (c : ascii) (n k : nat).

Lemma startswith_nil s : Str.startswith s "" = true.
Proof. by destruct s. Qed.

Lemma startswith_char s c d :
  Str.startswith (String d s) (String c "") = bool_decide (c = d).
Proof.
  unfold Str.startswith. simpl. destruct (ascii_dec c d).
  - rewrite bool_decide_eq_true_2 by done. by destruct s.
  - by rewrite bool_decide_eq_false_2.
Qed.

(** Replacing one character by another is a map over the string. *)
Lemma replace_char c d s :
  Str.replace (String c "") (String d "") s
  = Str.map (λ x, if Ascii.eqb x c then d else x) s.
Proof.
  unfold Str.replace. induction s as [|x s IH]; [done|].
  cbn [Str.replace_go Str.map]. rewrite startswith_char.
  destruct (Ascii.eqb_spec x c) as [->|Hne].
  - rewrite bool_decide_eq_true_2 by done. simpl. by rewrite IH.
  - rewrite bool_decide_eq_false_2 by congruence. by rewrite IH.
Qed.

Lemma map_map f g s : Str.map f (Str.map g s) = Str.map (f ∘ g) s.
Proof. induction s as [|x s IH]; simpl; [done|]. by rewrite IH. Qed.

Lemma map_ext f g s : (∀ x, f x = g x) → Str.map f s = Str.map g s.
Proof.
  intros Hfg. induction s as [|x s IH]; simpl; [done|]. by rewrite Hfg, IH.
Qed.

Lemma replace_dashes s :
  Str.replace "_" " " (Str.replace "-" " " s) = Str.map Spec.dash_to_space s.
Proof.
  rewrite !replace_char, map_map. apply map_ext. intros x.
  unfold Spec.dash_to_space. simpl.
  destruct (Ascii.eqb_spec x "-") as [->|?]; [done|].
  by destruct (Ascii.eqb x "_").
Qed.

(** [re.sub]: what the scan does at each position. *)
Lemma sub_go_drop (m : Re.matcher) k s :
  Re.sub_go m k s = Re.sub m (Str.drop k s).
Proof.
  revert k. induction s as [|c s IH]; intros [|k]; try done.
  simpl. apply IH.
Qed.

Lemma sub_step (m : Re.matcher) c s :
  Re.sub m (String c s)
  = match m (String c s) with
    | Some (S k) => Re.sub m (Str.drop k s)
    | _ => String c (Re.sub m s)
    end.
Proof.
  unfold Re.sub at 1. cbn [Re.sub_go].
  destruct (m (String c s)) as [[|k]|]; try done. apply sub_go_drop.
Qed.

(** The lazy [.*?] stops at the first place where [close] starts, and, when
    the dot excludes it, passes no line feed on the way. *)
Lemma lazy_until_spec close (dotall : bool) s n :
  Re.lazy_until close dotall s = Some n
  ↔ Str.startswith (Str.drop n s) close = true
    ∧ ∀ k, (k < n)%nat →
        Str.startswith (Str.drop k s) close = false
        ∧ (dotall = false → String.get k s ≠ Some Str.nl).
Proof.
  revert n. induction s as [|c s IH]; intros n.
  - cbn [Re.lazy_until]. destruct (Str.startswith "" close) eqn:Hc.
    + split.
      * intros [= <-]. split; [done|]. intros k ?; lia.
      * intros [_ Hmin]. destruct n as [|n]; [done|].
        destruct (Hmin 0%nat) as [Hf _]; [lia|]. cbn [Str.drop] in Hf.
        congruence.
    + split; [done|]. intros [Hn _]. destruct n; cbn [Str.drop] in Hn; congruence.
  - cbn [Re.lazy_until]. destruct (Str.startswith (String c s) close) eqn:Hc.
    + split.
      * intros [= <-]. split; [done|]. intros k ?; lia.
      * intros [_ Hmin]. destruct n as [|n]; [done|].
        destruct (Hmin 0%nat) as [Hf _]; [lia|]. cbn [Str.drop] in Hf.
        congruence.
    + destruct (negb dotall && Ascii.eqb c Str.nl) eqn:Hnl.
      * split; [done|]. intros [Hn Hmin]. destruct n as [|n].
        { cbn [Str.drop] in Hn. congruence. }
        destruct (Hmin 0%nat) as [_ Hline]; [lia|].
        apply andb_true_iff in Hnl as [Hd Hc'].
        apply negb_true_iff in Hd. apply Ascii.eqb_eq in Hc'. subst c.
        by destruct (Hline Hd).
      * destruct n as [|n].
        { split; [by destruct (Re.lazy_until _ _ _)|].
          intros [Hn _]. cbn [Str.drop] in Hn. congruence. }
        split.
        -- intros (n' & Hl & [= ->])%fmap_Some.
           apply IH in Hl as [Hn Hmin]. split; [done|].
           intros [|k] Hk.
           ++ split; [done|]. intros ->. simpl in *.
              intros [= ->]. by rewrite Ascii.eqb_refl in Hnl.
           ++ apply Hmin. lia.
        -- intros [Hn Hmin].
           assert (Hl : Re.lazy_until close dotall s = Some n).
           { apply IH. split; [done|]. intros k Hk.
             apply (Hmin (S k)). lia. }
           by rewrite Hl.
Qed.

(** [[^>]+>]: the run ends at the first [>]. *)
Lemma until_gt_spec s n :
  Re.until_gt s = Some n
  ↔ String.get n s = Some ">"%char
    ∧ ∀ k, (k < n)%nat → String.get k s ≠ Some ">"%char.
Proof.
  revert n. induction s as [|c s IH]; intros n.
  - simpl. split; [done|]. intros [Hn _]. by destruct n.
  - cbn [Re.until_gt]. destruct (Ascii.eqb_spec c ">") as [->|Hne].
    + split.
      * intros [= <-]. split; [done|]. intros k ?; lia.
      * intros [_ Hmin]. destruct n as [|n]; [done|].
        by destruct (Hmin 0%nat); [lia|].
    + destruct n as [|n].
      * split; [by destruct (Re.until_gt s)|].
        intros [Hn _]. simpl in Hn. congruence.
      * split.
        -- intros (n' & Hu & [= ->])%fmap_Some.
           apply IH in Hu as [Hn Hmin]. split; [done|].
           intros [|k] Hk; simpl; [congruence|]. apply Hmin. lia.
        -- intros [Hn Hmin].
           assert (Hu : Re.until_gt s = Some n).
           { apply IH. split; [done|]. intros k Hk. apply (Hmin (S k)). lia. }
           by rewrite Hu.
Qed.

(** [str.strip] trims: what it drops at either end is white space, and what
    it leaves has none there. *)
Lemma lstrip_split s :
  ∃ leading, s = leading +:+ Str.lstrip s ∧ Spec.blank leading.
Proof.
  induction s as [|x s (leading & Hs & Hblank)]; [by exists ""|]. simpl.
  destruct (Str.is_space x) eqn:Hx; [|by exists ""].
  exists (String x leading). split.
  - change (String x leading +:+ Str.lstrip s)
      with (String x (leading +:+ Str.lstrip s)). by rewrite <- Hs.
  - intros [|k] c; simpl; [by intros [= <-]|apply Hblank].
Qed.

Lemma rstrip_split s :
  ∃ trailing, s = Str.rstrip s +:+ trailing ∧ Spec.blank trailing.
Proof.
  induction s as [|x s (trailing & Hs & Hblank)]; [by exists ""|].
  cbn [Str.rstrip].
  destruct (Str.is_space x && Str.is_empty (Str.rstrip s)) eqn:Hx.
  - apply andb_true_iff in Hx as [Hx Hempty].
    destruct (Str.rstrip s); [|done]. simpl in Hs.
    exists (String x s). split; [done|].
    intros [|k] c; simpl; [by intros [= <-]|rewrite Hs; apply Hblank].
  - exists trailing. split; [|done].
    change (String x (Str.rstrip s) +:+ trailing)
      with (String x (Str.rstrip s +:+ trailing)). by rewrite <- Hs.
Qed.

Lemma lstrip_first s c :
  String.get 0 (Str.lstrip s) = Some c → Str.is_space c = false.
Proof.
  induction s as [|x s IH]; simpl; [done|].
  destruct (Str.is_space x) eqn:Hx; [done|]. simpl. by intros [= <-].
Qed.

Lemma rstrip_first s c :
  String.get 0 (Str.rstrip s) = Some c → String.get 0 s = Some c.
Proof.
  destruct s as [|x s]; simpl; [done|].
  by destruct (Str.is_space x && Str.is_empty (Str.rstrip s)).
Qed.

Lemma rstrip_final s c :
  String.get (String.length (Str.rstrip s) - 1) (Str.rstrip s) = Some c →
  Str.is_space c = false.
Proof.
  induction s as [|x s IH]; [done|]. cbn [Str.rstrip].
  destruct (Str.is_space x && Str.is_empty (Str.rstrip s)) eqn:Hx; [done|].
  destruct (Str.rstrip s) as [|y t] eqn:Ht.
  - simpl. intros [= <-]. simpl in Hx. by rewrite andb_true_r in Hx.
  - intros Hc. apply IH.
    by replace (String.length (String y t) - 1)%nat with (String.length t)
      by (simpl; lia).
Qed.

Lemma strip_trimmed s : Spec.trimmed s (Str.strip s).
Proof.
  destruct (lstrip_split s) as (leading & Hl & Hleading).
  destruct (rstrip_split (Str.lstrip s)) as (trailing & Hr & Htrailing).
  exists leading, trailing. unfold Str.strip. split_and!; [|done|done| |].
  - by rewrite <- Hr.
  - intros c Hc. by eapply lstrip_first, rstrip_first.
  - apply rstrip_final.
Qed.

End StringFacts.

Section ParserFacts.

Import Parser.

Lemma delimited_spec (open close : string) (dotall : bool) s n :
  Re.delimited open close dotall s = Some n
  ↔ Spec.delimited_match open close dotall s n.
Proof.
  unfold Re.delimited, Spec.delimited_match.
  destruct (Str.startswith s open); [|by split; [|intros [? _]]].
  split.
  - intros (b & Hb & [= <-])%bind_Some. split; [done|]. exists b.
    split; [done|]. by apply lazy_until_spec.
  - intros (_ & b & -> & Hb). apply lazy_until_spec in Hb.
    by rewrite Hb.
Qed.

Lemma html_tag_spec s n : Re.html_tag s = Some n ↔ Spec.tag_match s n.
Proof.
  unfold Re.html_tag, Spec.tag_match. split.
  - destruct s as [|c s']; [done|].
    destruct (decide (c = "<"%char)) as [->|Hne].
    + destruct (Re.until_gt s') as [[|b]|] eqn:Hu; try done.
      intros [= <-]. apply until_gt_spec in Hu as [Hb Hmin].
      exists s', (S b). split_and!; [done|lia|lia|done|done].
    + intros Hs. exfalso.
      destruct c as [[] [] [] [] [] [] [] []]; done.
  - intros (s' & b & -> & -> & Hb1 & Hb & Hmin).
    assert (Hu : Re.until_gt s' = Some b) by (by apply until_gt_spec).
    rewrite Hu. destruct b as [|b]; [lia|done].
Qed.

(** C9. [_clean_content] removes, in this order: the [{%...%}] directives,
    the [{{...}}] directives (both matched lazily and within one line), the
    HTML comments (matched lazily, across lines), and the HTML tags; then it
    strips the white space at both ends: what is returned is what the
    removals leave, less a run of white space at its start and one at its
    end, and it neither begins nor ends with white space. Each removal is a
    scan from left to right that drops a match where there is one and keeps
    the character otherwise. The page of the example comes out as two lines,
    "Hello " and "World", with no directive left. *)
Theorem clean_content_steps (content : string) :
  _clean_content content
  = Str.strip
      (Re.sub Re.html_tag
         (Re.sub Re.html_comment
            (Re.sub Re.liquid_output (Re.sub Re.liquid_tag content))))
  ∧ Spec.trimmed
      (Re.sub Re.html_tag
         (Re.sub Re.html_comment
            (Re.sub Re.liquid_output (Re.sub Re.liquid_tag content))))
      (_clean_content content)
  ∧ (∀ s n,
       (Re.liquid_tag s = Some n ↔ Spec.delimited_match "{%" "%}" false s n)
       ∧ (Re.liquid_output s = Some n ↔ Spec.delimited_match "{{" "}}" false s n)
       ∧ (Re.html_comment s = Some n ↔ Spec.delimited_match "<!--" "-->" true s n)
       ∧ (Re.html_tag s = Some n ↔ Spec.tag_match s n))
  ∧ (∀ (m : Re.matcher) c s,
       Re.sub m "" = ""
       ∧ Re.sub m (String c s)
         = match m (String c s) with
           | Some (S k) => Re.sub m (Str.drop k s)
           | _ => String c (Re.sub m s)
           end)
  ∧ let cleaned := _clean_content Sample.jekyll_page in
    cleaned = "Hello " +:+ String Str.nl "World"
    ∧ Str.contains "Hello" cleaned = true
    ∧ Str.contains "World" cleaned = true
    ∧ Str.contains "{%" cleaned = false
    ∧ Str.contains "{{" cleaned = false.
Proof.
  split_and!.
  - reflexivity.
  - apply strip_trimmed.
  - intros s n. split_and!; (apply delimited_spec || apply html_tag_spec).
  - intros m c s. split; [done|apply sub_step].
  - vm_compute. by split_and!.
Qed.

(** Lazy and line-bound directives, comments across lines, tags: the four
    removals at work. *)
Example removals :
  remove_liquid_tags "{% a %}keep{% b %}" = "keep"
  ∧ remove_liquid_tags ("{% a" +:+ String Str.nl "%}") = "{% a" +:+ String Str.nl "%}"
  ∧ remove_liquid_outputs "{{{x}}}" = "}"
  ∧ remove_html_comments ("<!-- a" +:+ String Str.nl "b -->c<!---->") = "c"
  ∧ remove_html_tags "<b>bold</b> <> a < b" = "bold <> a < b".
Proof. by vm_compute. Qed.

(** The order of the removals shows: a comment opened before a directive and
    closed inside it survives in part. *)
Example removal_order :
  _clean_content "<!-- {% x --> %}" = "<!--"
  ∧ Str.strip (remove_html_tags (remove_liquid_outputs (remove_liquid_tags
      (remove_html_comments "<!-- {% x --> %}")))) = "%}".
Proof. by vm_compute. Qed.




(** C8. [_compute_url] removes every [.md], not only the extension: for a
    file under a directory [api.md] it yields a URL under [api], where the
    specification (and the comment in the code, "Remove .md extension")
    keeps the directory name. On [sql-ref/syntax.md] the two agree. *)
Theorem compute_url_removes_every_md :
  _compute_url ["api.md"; "index.md"]
  = "https://spark.apache.org/docs/latest/api/index.html"
  ∧ Spec.derive_url ["api.md"; "index.md"]
    = "https://spark.apache.org/docs/latest/api.md/index.html"
  ∧ _compute_url ["api.md"; "index.md"] ≠ Spec.derive_url ["api.md"; "index.md"]
  ∧ _compute_url ["sql-ref"; "syntax.md"]
    = "https://spark.apache.org/docs/latest/sql-ref/syntax.html"
  ∧ Spec.derive_url ["sql-ref"; "syntax.md"]
    = "https://spark.apache.org/docs/latest/sql-ref/syntax.html".
Proof. by vm_compute. Qed.

End ParserFacts.

(** ** More on the document store *)

Section StoreAsMap.

Import Database MapView.

Implicit Types (d : db) (r : row) (doc : Document) (p : string)
  (m : gmap string Document).

Lemma view_lookup d p : view d !! p = get_document d p.
Proof.
  unfold view, get_document.
  induction (documents d) as [|r rows IH]; [done|].
  rewrite fmap_cons. cbn [list_to_map list_find]. unfold binding at 1. simpl.
  destruct (decide (has_path p r)) as [Hp|Hp].
  - unfold has_path in Hp. subst p. by rewrite lookup_insert_eq.
  - unfold has_path in Hp. rewrite lookup_insert_ne by done. rewrite IH.
    by destruct (list_find (has_path p) rows) as [[? ?]|].
Qed.

Lemma list_find_insert_other {A} (P : A → Prop) `{∀ a, Decision (P a)}
    (l : list A) i (x y : A) :
  l !! i = Some x → ¬ P x → ¬ P y → list_find P (<[i:=y]> l) = list_find P l.
Proof.
  revert i. induction l as [|a l IH]; intros [|i] Hi Hx Hy; try done.
  - simpl in Hi. injection Hi as ->. cbn [list_find]. simpl.
    by rewrite !decide_False.
  - simpl in Hi. change (<[S i:=y]> (a :: l)) with (a :: <[i:=y]> l).
    cbn [list_find]. destruct (decide (P a)); [done|].
    by rewrite (IH i).
Qed.

Lemma list_find_snoc_other {A} (P : A → Prop) `{∀ a, Decision (P a)}
    (l : list A) (y : A) :
  ¬ P y → list_find P (l ++ [y]) = list_find P l.
Proof.
  intros Hy. induction l as [|a l IH].
  - cbn [app list_find]. by rewrite decide_False.
  - change ((a :: l) ++ [y]) with (a :: (l ++ [y])). cbn [list_find].
    destruct (decide (P a)); [done|]. by rewrite IH.
Qed.

(** An upsert touches no other path. *)
Lemma get_upsert_other d doc now p :
  p ≠ doc_path doc →
  get_document (upsert_document d doc now) p = get_document d p.
Proof.
  intros Hp. unfold get_document.
  destruct (list_find (has_path (doc_path doc)) (documents d))
    as [[i old]|] eqn:Hfind.
  - destruct (upsert_existing d doc now i old Hfind) as [-> _].
    apply list_find_Some in Hfind as (Hi & Hold & _). unfold has_path in Hold.
    rewrite (list_find_insert_other _ _ i old); [done|done| |];
      unfold has_path; simpl; congruence.
  - destruct (upsert_fresh d doc now Hfind) as [-> _].
    rewrite list_find_snoc_other; [done|]. unfold has_path. simpl. congruence.
Qed.

Lemma get_upsert d doc now p :
  get_document (upsert_document d doc now) p
  = if decide (p = doc_path doc) then Some doc else get_document d p.
Proof.
  destruct (decide (p = doc_path doc)) as [->|Hp].
  - unfold get_document.
    destruct (find_after_upsert d doc now) as (i & r & -> & Hdoc).
    simpl. by rewrite Hdoc.
  - by apply get_upsert_other.
Qed.

Lemma view_apply_op d o : view (apply_op d o) = step (view d) o.
Proof.
  destruct o as [doc now|]; simpl; [|done].
  apply map_eq. intros p. rewrite view_lookup, get_upsert.
  destruct (decide (p = doc_path doc)) as [->|Hp].
  - by rewrite lookup_insert_eq.
  - rewrite lookup_insert_ne by done. by rewrite view_lookup.
Qed.

Lemma view_run ops d : view (run ops d) = after ops (view d).
Proof.
  revert d. induction ops as [|o ops IH]; intros d; [done|].
  simpl. by rewrite IH, view_apply_op.
Qed.

(** X1. Lookups see the store as a finite map: after any sequence of
    operations on any store, [get_document] returns for each path what the
    map returns that the upserts (insert under the document's path) and the
    clears (empty the map) build from the store's initial bindings. *)
Theorem lookups_follow_the_map (ops : list op) d p :
  get_document (run ops d) p = after ops (view d) !! p.
Proof. by rewrite <- view_lookup, view_run. Qed.

Lemma view_size d :
  NoDup (r_path <$> documents d) → size (view d) = length (documents d).
Proof.
  intros Hnd. unfold view.
  rewrite <- (length_fmap binding (documents d)).
  apply map_size_list_to_map. by rewrite <- list_fmap_compose.
Qed.

(** X2. The count of a store reached from the empty one is the number of
    paths bound in that map: the paths upserted since the last clear, each
    counted once. *)
Theorem count_is_number_of_paths (ops : list op) :
  get_document_count (run ops empty_db) = Z.of_nat (size (after ops ∅)).
Proof.
  unfold get_document_count. f_equal.
  replace (after ops ∅) with (view (run ops empty_db))
    by apply (view_run ops empty_db).
  symmetry. apply view_size.
  apply (wf_paths _ (run_well_formed ops _ empty_db_well_formed)).
Qed.

End StoreAsMap.

Section StoreIdentity.

Import Database MapView.

Implicit Types (d : db) (r : row) (doc : Document).

Lemma elem_of_insert_inv {A} (l : list A) i (x y : A) :
  y ∈ <[i:=x]> l → y = x ∨ y ∈ l.
Proof.
  revert i. induction l as [|a l IH]; intros [|i]; simpl; try (by right).
  - intros [-> |Hy]%elem_of_cons; [by left|]. right. by right.
  - intros [-> |Hy]%elem_of_cons; [right; by left|].
    destruct (IH i Hy) as [-> |?]; [by left|]. right. by right.
Qed.

(** One operation: a row of the new table either carries on a row of the old
    one or has an id beyond the old sequence; the sequence does not go down. *)
Lemma apply_op_rows d o r :
  r ∈ documents (apply_op d o) →
  (∃ r0, r0 ∈ documents d ∧ same_identity r0 r) ∨ sqlite_sequence d < r_id r.
Proof.
  destruct o as [doc now|]; simpl; [|by intros ?%elem_of_nil].
  unfold upsert_document.
  destruct (list_find _ _) as [[i old]|] eqn:Hfind; simpl.
  - intros [-> |Hr]%elem_of_insert_inv; left.
    + exists old. split; [|done].
      apply list_find_Some in Hfind as (Hi & _). by eapply list_elem_of_lookup_2.
    + by exists r.
  - intros [Hr|Hr%list_elem_of_singleton]%elem_of_app.
    + left. by exists r.
    + right. subst r. simpl. lia.
Qed.

Lemma apply_op_sequence d o : sqlite_sequence d ≤ sqlite_sequence (apply_op d o).
Proof.
  destruct o as [doc now|]; simpl; [|done]. unfold upsert_document.
  destruct (list_find _ _) as [[i old]|]; simpl; lia.
Qed.

(** X3. Ids are never handed out twice: after any further operations, a row
    whose id is not beyond the sequence of an earlier state of the store is
    the row that had this id then, with the same path and the same
    [created_at]. So a path inserted after a clear never gets an id that
    was in use before, and no update ever changes [created_at]. *)
Theorem ids_are_never_reused (ops : list op) d r :
  r ∈ documents (run ops d) →
  r_id r ≤ sqlite_sequence d →
  ∃ r0, r0 ∈ documents d ∧ same_identity r0 r.
Proof.
  revert d. induction ops as [|o ops IH]; intros d Hr Hid; simpl in Hr.
  - exists r. by split.
  - destruct (IH (apply_op d o) Hr) as (r1 & Hr1 & Hid1 & Hp1 & Hc1).
    { pose proof (apply_op_sequence d o). lia. }
    destruct (apply_op_rows d o r1 Hr1) as [(r0 & Hr0 & Hid0 & Hp0 & Hc0)|Hnew].
    + exists r0. split; [done|]. split_and!; congruence.
    + lia.
Qed.

Lemma ids_are_never_reused_witness :
  let d := run [Upsert Sample.doc1 100; Upsert Sample.doc2 101] empty_db in
  let r := updated_row (inserted_row 0 Sample.doc1 100) Sample.doc1' 105 in
  r ∈ documents (run [Upsert Sample.doc1' 105] d)
  ∧ r_id r ≤ sqlite_sequence d
  ∧ ∃ r0, r0 ∈ documents d ∧ same_identity r0 r.
Proof.
  intros d r.
  assert (Hr : r ∈ documents (run [Upsert Sample.doc1' 105] d)) by (by left).
  assert (Hid : r_id r ≤ sqlite_sequence d) by (by vm_compute).
  split_and!; [done|done|].
  exact (ids_are_never_reused [Upsert Sample.doc1' 105] d r Hr Hid).
Defined.

(** With a clock that does not go backwards, no row is updated before it was
    created. *)
Lemma timestamps_bounded (ops : list op) d (t : Z) :
  Forall (λ r, r_created_at r ≤ r_updated_at r ∧ r_updated_at r ≤ t) (documents d) →
  Forall (λ now, t ≤ now) (readings ops) →
  StronglySorted Z.le (readings ops) →
  Forall (λ r, r_created_at r ≤ r_updated_at r) (documents (run ops d)).
Proof.
  revert d t. induction ops as [|o ops IH]; intros d t Hd Ht Hs; simpl.
  - eapply Forall_impl; [exact Hd|]. by intros r [? _].
  - destruct o as [doc now|]; simpl in *.
    + apply Forall_cons in Ht as [Hnow Ht].
      apply StronglySorted_cons in Hs as [Hrest Hs].
      apply (IH _ now); [|done|done].
      rewrite Forall_forall in Hd |- *. intros r Hr. unfold upsert_document in Hr.
      destruct (list_find _ _) as [[i old]|] eqn:Hfind; simpl in Hr.
      * apply elem_of_insert_inv in Hr as [-> |Hr].
        -- apply list_find_Some in Hfind as (Hi & _).
           destruct (Hd old) as [? ?]; [by eapply list_elem_of_lookup_2|].
           simpl. lia.
        -- destruct (Hd r Hr). lia.
      * apply elem_of_app in Hr as [Hr|Hr%list_elem_of_singleton].
        -- destruct (Hd r Hr). lia.
        -- subst r. simpl. lia.
    + apply (IH _ t); [constructor|done|done].
Qed.

(** X4. When the clock readings of the upserts do not decrease, every row
    of the store has [created_at] no later than [updated_at]. *)
Theorem created_before_updated (ops : list op) r :
  StronglySorted Z.le (readings ops) →
  r ∈ documents (run ops empty_db) →
  r_created_at r ≤ r_updated_at r.
Proof.
  intros Hs Hr.
  assert (Hall : Forall (λ r, r_created_at r ≤ r_updated_at r)
                   (documents (run ops empty_db))).
  { destruct (readings ops) as [|t0 ts] eqn:Hts.
    - apply (timestamps_bounded ops empty_db 0); rewrite ?Hts; by constructor.
    - apply (timestamps_bounded ops empty_db t0); rewrite ?Hts;
        [constructor| |done].
      apply StronglySorted_cons in Hs as [Hts' _].
      constructor; [lia|done]. }
  rewrite Forall_forall in Hall. by apply Hall.
Qed.

Lemma created_before_updated_witness :
  let ops := [Upsert Sample.doc1 100; Upsert Sample.doc2 101;
              Upsert Sample.doc1' 105] in
  let r := updated_row (inserted_row 0 Sample.doc1 100) Sample.doc1' 105 in
  StronglySorted Z.le (readings ops)
  ∧ r ∈ documents (run ops empty_db)
  ∧ r_created_at r ≤ r_updated_at r.
Proof.
  intros ops r.
  assert (Hs : StronglySorted Z.le (readings ops)).
  { repeat constructor; by vm_compute. }
  assert (Hr : r ∈ documents (run ops empty_db)) by (by left).
  split_and!; [done|done|].
  exact (created_before_updated ops r Hs Hr).
Defined.

End StoreIdentity.

(** ** More on ranked search *)

Section OrderingMore.

Import Database Ranking.

Implicit Types (h x : hit) (l : list hit).

Lemma insert_by_score_head h l :
  Forall (score_le h) l → insert_by_score h l = h :: l.
Proof.
  destruct 1 as [|x l Hx _]; simpl; [done|].
  by rewrite (proj2 (Qle_bool_iff _ _) Hx).
Qed.

Lemma insert_by_score_le_sorted h l :
  StronglySorted score_le l → StronglySorted score_le (insert_by_score h l).
Proof.
  induction 1 as [|x l Hs IH Hx]; simpl; [repeat constructor|].
  destruct (Qle_bool (h_score h) (h_score x)) eqn:Hle.
  - apply Qle_bool_iff in Hle. constructor; [by constructor|].
    constructor; [done|]. eapply Forall_impl; [exact Hx|].
    intros y Hy. unfold score_le in *. by eapply Qle_trans.
  - assert (Hlt : (h_score x < h_score h)%Q).
    { apply Qnot_le_lt. intros Hle'. apply Qle_bool_iff in Hle'. congruence. }
    constructor; [done|]. rewrite Forall_forall. intros y Hy.
    rewrite insert_by_score_perm in Hy. apply elem_of_cons in Hy as [-> |Hy].
    + by apply Qlt_le_weak.
    + rewrite Forall_forall in Hx. by apply Hx.
Qed.

Lemma order_by_score_le_sorted l : StronglySorted score_le (order_by_score l).
Proof.
  induction l as [|h l IH]; simpl; [constructor|].
  by apply insert_by_score_le_sorted.
Qed.

(** The sort is stable, so it commutes with a filter. *)
Lemma filter_insert_by_score (P : hit → Prop) `{∀ a, Decision (P a)} h l :
  StronglySorted score_le l →
  filter P (insert_by_score h l)
  = if decide (P h) then insert_by_score h (filter P l) else filter P l.
Proof.
  induction 1 as [|x l Hs IH Hx]; simpl.
  - rewrite filter_cons, filter_nil. by destruct (decide (P h)).
  - destruct (Qle_bool (h_score h) (h_score x)) eqn:Hle.
    + rewrite filter_cons. destruct (decide (P h)); [|done].
      rewrite insert_by_score_head; [done|].
      apply Qle_bool_iff in Hle.
      rewrite Forall_forall. intros y [_ Hy]%list_elem_of_filter.
      apply elem_of_cons in Hy as [-> |Hy]; [done|].
      rewrite Forall_forall in Hx. unfold score_le in *.
      eapply Qle_trans; [exact Hle|]. by apply Hx.
    + rewrite !(filter_cons _ x), IH.
      destruct (decide (P x)), (decide (P h)); simpl; try done.
      by rewrite Hle.
Qed.

Lemma filter_order_by_score (P : hit → Prop) `{∀ a, Decision (P a)} l :
  filter P (order_by_score l) = order_by_score (filter P l).
Proof.
  induction l as [|h l IH]; simpl; [done|].
  rewrite filter_insert_by_score by apply order_by_score_le_sorted.
  rewrite filter_cons, IH. by destruct (decide (P h)).
Qed.

Lemma filter_fmap {A B} (f : A → B) (P : B → Prop) `{∀ b, Decision (P b)}
    (l : list A) :
  filter P (f <$> l) = f <$> filter (P ∘ f) l.
Proof.
  induction l as [|a l IH]; [done|].
  rewrite fmap_cons, !filter_cons, IH. simpl. by destruct (decide (P (f a))).
Qed.

Lemma filter_True {A} (P : A → Prop) `{∀ a, Decision (P a)} (l : list A) :
  (∀ a, P a) → filter P l = l.
Proof.
  intros HP. induction l as [|a l IH]; [done|].
  by rewrite filter_cons_True, IH.
Qed.

End OrderingMore.

Section SearchMore.

Import Database Ranking.

Variable fts5_match : string → option (fts_entry → bool).
Variable bm25 : list Q → string → list fts_entry → fts_entry → Q.
Variable snippet :
  string → fts_entry → nat → string → string → string → nat → string.

Abbreviation search := (search fts5_match bm25 snippet).
Abbreviation search_hits := (search_hits bm25 snippet).
Abbreviation select_hit := (select_hit bm25 snippet).

Implicit Types (d : db) (m : fts_entry → bool) (q : string)
  (section : option string) (limit : Z).

(** X5. After a clear, in a store reached by any sequence of operations,
    nothing is left to find: the count is 0, no path has a document, and
    every search with a well-formed query returns the empty list (a query
    FTS5 refuses still fails). Clearing again changes nothing. *)
Theorem clear_leaves_nothing (ops : list op) q section limit p :
  let d := clear (run ops empty_db) in
  get_document_count d = 0
  ∧ get_document d p = None
  ∧ search d q section limit
    = match fts5_match q with
      | Some _ => Ok []
      | None => Raise OperationalError
      end
  ∧ clear d = d.
Proof.
  intros d. split_and!.
  - reflexivity.
  - reflexivity.
  - unfold Database.search, Database.search_hits, fts_join.
    destruct (fts5_match q) as [m|]; [|done].
    pose proof (run_well_formed ops _ empty_db_well_formed) as [Hidx _ _ _].
    subst d. unfold clear at 1. simpl. rewrite Hidx, clear_index. simpl.
    unfold sql_limit. destruct (limit <? 0); [done|]. by rewrite take_nil.
  - reflexivity.
Qed.

Lemma search_hits_limit d q m section limit :
  search_hits d q m section limit
  = sql_limit limit (search_hits d q m section (-1)).
Proof. done. Qed.

Lemma fmap_sql_limit {A B} (f : A → B) limit (l : list A) :
  f <$> sql_limit limit l = sql_limit limit (f <$> l).
Proof. unfold sql_limit. destruct (limit <? 0); [done|]. apply fmap_take. Qed.

(** The limit only cuts: the results under a limit are the first
    [limit] results of the same search without bound (all of them when the
    limit is negative), so a non-negative limit is never exceeded. *)
Lemma limit_takes_a_prefix d q section limit :
  search d q section limit
  = match search d q section (-1) with
    | Ok unbounded => Ok (sql_limit limit unbounded)
    | Raise e => Raise e
    end
  ∧ match search d q section limit with
    | Ok rs => limit < 0 ∨ Z.of_nat (length rs) ≤ limit
    | Raise _ => fts5_match q = None
    end.
Proof.
  unfold Database.search. destruct (fts5_match q) as [m|]; [|done]. split.
  - by rewrite search_hits_limit, fmap_sql_limit.
  - rewrite length_fmap, search_hits_limit. unfold sql_limit at 1.
    destruct (limit <? 0) eqn:Hneg; [left; by apply Z.ltb_lt|right].
    apply Z.ltb_ge in Hneg. rewrite length_take. lia.
Qed.

Lemma section_clause_Some (s : string) (r : row) :
  s ≠ "" → (section_clause (Some s) r ↔ r_section r = s).
Proof.
  intros Hs. unfold section_clause, truthy. destruct s; [done|]. simpl.
  apply bool_decide_spec.
Qed.

(** X6. Filtering by a section does not touch the ranking: for a section
    other than the empty string, the unbounded filtered search returns the
    results of the unbounded search without section that carry this section,
    in the same order. *)
Theorem section_filter_keeps_the_order d q (s : string) :
  s ≠ "" →
  search d q (Some s) (-1)
  = match search d q None (-1) with
    | Ok unfiltered => Ok (filter (λ r, sr_section r = s) unfiltered)
    | Raise e => Raise e
    end.
Proof.
  intros Hs. unfold Database.search. destruct (fts5_match q) as [m|]; [|done].
  f_equal. unfold Database.search_hits, sql_limit. simpl.
  rewrite filter_fmap, filter_order_by_score, filter_fmap. do 3 f_equal.
  rewrite list_filter_filter. apply list_filter_iff. intros er. cbv beta.
  rewrite (section_clause_Some s er.2 Hs). simpl. tauto.
Qed.

(** The rows of the result set before the sort, in a well-formed store. *)
Lemma scanned_rows d q m section :
  well_formed d →
  select_hit d q <$> filter (λ er, section_clause section er.2) (fts_join d m)
  = (λ r, select_hit d q (fts_values r, r))
    <$> filter (λ r, section_clause section r)
          (filter (λ r, m (fts_values r)) (documents d)).
Proof.
  intros Hwf. rewrite (fts_join_well_formed d m Hwf), filter_fmap.
  by rewrite <- list_fmap_compose.
Qed.

(** X7. In a store reached by any sequence of operations, the unbounded
    search with a well-formed query returns exactly the stored documents
    whose index entry matches the query and whose section passes the filter:
    each result is built from such a row (its path, title, url and section,
    the snippet and the absolute value of its rank), and each such row gives
    a result. *)
Theorem search_returns_the_matching_documents (ops : list op) q m section
    (r : SearchResult) :
  fts5_match q = Some m →
  let d := run ops empty_db in
  ∃ rs,
    search d q section (-1) = Ok rs
    ∧ (r ∈ rs ↔
       ∃ row, row ∈ documents d
              ∧ m (fts_values row)
              ∧ section_clause section row
              ∧ r = result_of_hit (select_hit d q (fts_values row, row))).
Proof.
  intros Hq d. unfold Database.search. rewrite Hq. eexists. split; [done|].
  unfold Database.search_hits, sql_limit. simpl.
  rewrite scanned_rows
    by apply run_well_formed, empty_db_well_formed.
  rewrite list_elem_of_fmap. setoid_rewrite elem_of_order_by_score.
  setoid_rewrite list_elem_of_fmap. setoid_rewrite list_elem_of_filter.
  split.
  - intros (h & -> & row & -> & Hsec & [Hm Hrow]%list_elem_of_filter).
    by exists row.
  - intros (row & Hrow & Hm & Hsec & ->). eexists. split; [done|].
    exists row. split_and!; [done|done|]. by apply list_elem_of_filter.
Qed.

(** X8. In a store reached by any sequence of operations no document is
    returned twice: the paths of the results of a search are pairwise
    distinct. *)
Theorem search_returns_each_document_once (ops : list op) q section limit :
  match search (run ops empty_db) q section limit with
  | Ok rs => NoDup (sr_path <$> rs)
  | Raise _ => fts5_match q = None
  end.
Proof.
  unfold Database.search. destruct (fts5_match q) as [m|]; [|done].
  pose proof (run_well_formed ops _ empty_db_well_formed) as Hwf.
  set (d := run ops empty_db) in *.
  rewrite <- list_fmap_compose.
  eapply sublist_NoDup;
    [|apply fmap_sublist, sublist_alt; unfold Database.search_hits, sql_limit;
      destruct (limit <? 0); [by exists []|apply sublist_alt, sublist_take]].
  rewrite order_by_score_perm, scanned_rows by done.
  rewrite <- list_fmap_compose.
  eapply sublist_NoDup; [exact (wf_paths d Hwf)|].
  apply fmap_sublist. etrans; apply sublist_filter.
Qed.

End SearchMore.

Lemma section_filter_keeps_the_order_witness :
  "sql" ≠ ""
  ∧ Database.search Sample.fts5_match Sample.bm25 Sample.snippet
      Sample.two_docs "Spark" (Some "sql") (-1)
    = match Database.search Sample.fts5_match Sample.bm25 Sample.snippet
              Sample.two_docs "Spark" None (-1) with
      | Ok unfiltered => Ok (filter (λ r, sr_section r = "sql") unfiltered)
      | Raise e => Raise e
      end.
Proof.
  assert (Hs : "sql" ≠ "") by discriminate.
  split; [exact Hs|].
  exact (section_filter_keeps_the_order Sample.fts5_match Sample.bm25
           Sample.snippet Sample.two_docs "Spark" "sql" Hs).
Defined.

Lemma search_returns_the_matching_documents_witness :
  let d := Database.run
             [Database.Upsert Sample.doc1 100; Database.Upsert Sample.doc2 101]
             Database.empty_db in
  let row := Database.inserted_row 1 Sample.doc2 101 in
  let r :=
    Database.result_of_hit
      (Database.select_hit Sample.bm25 Sample.snippet d "SQL"
         (Database.fts_values row, row)) in
  Sample.fts5_match "SQL" = Some (Sample.matches "SQL")
  ∧ ∃ rs,
      Database.search Sample.fts5_match Sample.bm25 Sample.snippet d "SQL"
        None (-1) = Ok rs
      ∧ (r ∈ rs ↔
         ∃ row', row' ∈ Database.documents d
                 ∧ Sample.matches "SQL" (Database.fts_values row')
                 ∧ Database.section_clause None row'
                 ∧ r = Database.result_of_hit
                         (Database.select_hit Sample.bm25 Sample.snippet d "SQL"
                            (Database.fts_values row', row'))).
Proof.
  intros d row r.
  assert (Hq : Sample.fts5_match "SQL" = Some (Sample.matches "SQL"))
    by reflexivity.
  split; [exact Hq|].
  exact (search_returns_the_matching_documents Sample.fts5_match Sample.bm25
           Sample.snippet
           [Database.Upsert Sample.doc1 100; Database.Upsert Sample.doc2 101]
           "SQL" (Sample.matches "SQL") None r Hq).
Defined.

(** ** More on the parser *)

Section StringMore.

Implicit Types (s t u old new : string) (c x : ascii) (k n : nat).

Lemma append_cons c s t : String c s +:+ t = String c (s +:+ t).
Proof. done. Qed.

Lemma append_nil_r s : s +:+ "" = s.
Proof. induction s as [|c s IH]; [done|]. by rewrite append_cons, IH. Qed.

Lemma append_assoc s t u : (s +:+ t) +:+ u = s +:+ t +:+ u.
Proof. induction s as [|c s IH]; [done|]. by rewrite !append_cons, IH. Qed.

Lemma length_append s t :
  String.length (s +:+ t) = (String.length s + String.length t)%nat.
Proof.
  induction s as [|c s IH]; [done|]. rewrite append_cons. simpl. by rewrite IH.
Qed.

Lemma take_append s t : Str.take (String.length s) (s +:+ t) = s.
Proof.
  induction s as [|c s IH]; [by destruct t|].
  rewrite append_cons. simpl. by rewrite IH.
Qed.

Lemma startswith_append s t : Str.startswith (s +:+ t) s = true.
Proof.
  unfold Str.startswith. induction s as [|c s IH]; [by destruct t|].
  rewrite append_cons. simpl. by destruct (ascii_dec c c).
Qed.

Lemma startswith_append_l s t u :
  Str.startswith s u = true → Str.startswith (s +:+ t) u = true.
Proof.
  unfold Str.startswith. revert s. induction u as [|c u IH]; intros s.
  - intros _. by destruct (s +:+ t).
  - destruct s as [|x s]; [done|]. rewrite append_cons. simpl.
    destruct (ascii_dec c x); [apply IH|done].
Qed.

Lemma rev_app_append s t : String.rev_app s t = String.rev s +:+ t.
Proof.
  unfold String.rev. revert t. induction s as [|c s IH]; intros t; [done|].
  cbn [String.rev_app]. rewrite IH, (IH (String c "")).
  by rewrite append_assoc.
Qed.

Lemma rev_append s t : String.rev (s +:+ t) = String.rev t +:+ String.rev s.
Proof.
  induction s as [|c s IH].
  - change (String.rev "") with "". by rewrite append_nil_r.
  - rewrite append_cons. unfold String.rev at 1 3. cbn [String.rev_app].
    rewrite !rev_app_append, IH.
    by rewrite append_assoc.
Qed.

Lemma endswith_append s t : Str.endswith (s +:+ t) t = true.
Proof. unfold Str.endswith. rewrite rev_append. apply startswith_append. Qed.

Lemma endswith_append_r s t u :
  Str.endswith t u = true → Str.endswith (s +:+ t) u = true.
Proof.
  unfold Str.endswith. rewrite rev_append. apply startswith_append_l.
Qed.

End StringMore.

Section UrlFacts.

Import Parser.

(** X9. Every URL [_compute_url] builds starts with the base URL of the
    Spark documentation followed by a slash, and ends in [.html]. *)
Theorem url_has_base_and_html (relative_path : path) :
  Str.startswith (_compute_url relative_path) (SPARK_DOCS_BASE_URL +:+ "/") = true
  ∧ Str.endswith (_compute_url relative_path) ".html" = true.
Proof.
  unfold _compute_url.
  set (s := Str.replace ".markdown" "" (Str.replace ".md" "" (path_str relative_path))).
  split.
  - rewrite <- append_assoc. apply startswith_append.
  - rewrite <- append_assoc. apply endswith_append_r.
    destruct (Str.endswith s ".html") eqn:Hs; simpl; [done|].
    apply endswith_append.
Qed.

End UrlFacts.

Section ReplaceFacts.

Implicit Types (s t stem rest old new : string) (c x : ascii) (k : nat).

(** Where [old] does not occur, [replace] copies. *)
Lemma replace_copies old new stem rest :
  (∀ k, (k < String.length stem)%nat →
        Str.startswith (Str.drop k (stem +:+ rest)) old = false) →
  Str.replace old new (stem +:+ rest) = stem +:+ Str.replace old new rest.
Proof.
  unfold Str.replace. induction stem as [|c stem IH]; intros Hno; [done|].
  assert (H0 : Str.startswith (String c (stem +:+ rest)) old = false).
  { apply (Hno 0%nat). simpl. lia. }
  rewrite !append_cons. cbn [Str.replace_go]. rewrite H0. f_equal. apply IH.
  intros k Hk. apply (Hno (S k)). simpl. lia.
Qed.

Lemma startswith_drop_append_true s t old k :
  Str.startswith (Str.drop k s) old = true →
  (k ≤ String.length s)%nat →
  Str.startswith (Str.drop k (s +:+ t)) old = true.
Proof.
  revert k. induction s as [|c s IH]; intros [|k] Hs Hk.
  - by apply startswith_append_l.
  - simpl in Hk. lia.
  - by apply startswith_append_l.
  - apply (IH k); [done|]. simpl in Hk. lia.
Qed.

Lemma startswith_drop_append s t old k :
  Str.startswith (Str.drop k (s +:+ t)) old = false →
  (k ≤ String.length s)%nat →
  Str.startswith (Str.drop k s) old = false.
Proof.
  intros Hno Hk. destruct (Str.startswith (Str.drop k s) old) eqn:Hs; [|done].
  by rewrite (startswith_drop_append_true s t old k Hs Hk) in Hno.
Qed.

End ReplaceFacts.

Section UrlAgreement.

Import Parser.

Lemma url_of_stem (relative_path : path) (stem ext : string) :
  ext = ".md" ∨ ext = ".markdown" →
  path_str relative_path = stem +:+ ext →
  (∀ k, (k < String.length stem)%nat →
        Str.startswith (Str.drop k (path_str relative_path)) ".md" = false
        ∧ Str.startswith (Str.drop k (path_str relative_path)) ".markdown" = false) →
  Str.replace ".markdown" "" (Str.replace ".md" "" (path_str relative_path)) = stem
  ∧ Spec.strip_extension (path_str relative_path) = stem.
Proof.
  intros Hext -> Hno.
  assert (Hstem : ∀ k, (k < String.length stem)%nat →
            Str.startswith (Str.drop k (stem +:+ "")) ".markdown" = false).
  { intros k Hk. rewrite append_nil_r.
    eapply startswith_drop_append; [apply (Hno k Hk)|lia]. }
  split.
  - destruct Hext as [-> | ->].
    + rewrite replace_copies by (intros k Hk; apply (Hno k Hk)).
      change (Str.replace ".md" "" ".md") with "".
      rewrite replace_copies by done. by rewrite append_nil_r.
    + rewrite replace_copies by (intros k Hk; apply (Hno k Hk)).
      change (Str.replace ".md" "" ".markdown") with ".markdown".
      rewrite replace_copies by (intros k Hk; apply (Hno k Hk)).
      by rewrite append_nil_r.
  - unfold Spec.strip_extension. destruct Hext as [-> | ->].
    + rewrite endswith_append, length_append.
      replace (String.length stem + String.length ".md" - 3)%nat
        with (String.length stem) by (simpl; lia).
      apply take_append.
    + assert (Hmd : Str.endswith (stem +:+ ".markdown") ".md" = false).
      { unfold Str.endswith. by rewrite rev_append. }
      rewrite Hmd, endswith_append, length_append.
      replace (String.length stem + String.length ".markdown" - 9)%nat
        with (String.length stem) by (simpl; lia).
      apply take_append.
Qed.

(** X10. Where [.md] and [.markdown] occur in the relative path only as
    the extension at its end, [_compute_url] yields the URL the
    specification describes: base URL, the path without its extension, and
    [.html] unless the path already ends so. *)
Theorem url_as_specified_for_plain_names (relative_path : path)
    (stem ext : string) :
  ext = ".md" ∨ ext = ".markdown" →
  path_str relative_path = stem +:+ ext →
  (∀ k, (k < String.length stem)%nat →
        Str.startswith (Str.drop k (path_str relative_path)) ".md" = false
        ∧ Str.startswith (Str.drop k (path_str relative_path)) ".markdown" = false) →
  _compute_url relative_path = Spec.derive_url relative_path
  ∧ _compute_url relative_path
    = SPARK_DOCS_BASE_URL +:+ "/"
      +:+ (if Str.endswith stem ".html" then stem else stem +:+ ".html").
Proof.
  intros Hext Hs Hno.
  destruct (url_of_stem relative_path stem ext Hext Hs Hno) as [Hcode Hspec].
  unfold _compute_url, Spec.derive_url. rewrite Hcode, Hspec.
  by destruct (Str.endswith stem ".html").
Qed.

End UrlAgreement.

Lemma url_as_specified_for_plain_names_witness :
  let relative_path := ["sql-ref"; "syntax.md"] in
  (".md" = ".md" ∨ ".md" = ".markdown")
  ∧ Parser.path_str relative_path = "sql-ref/syntax" +:+ ".md"
  ∧ (∀ k, (k < String.length "sql-ref/syntax")%nat →
      Str.startswith (Str.drop k (Parser.path_str relative_path)) ".md" = false
      ∧ Str.startswith (Str.drop k (Parser.path_str relative_path)) ".markdown"
        = false)
  ∧ Parser._compute_url relative_path = Spec.derive_url relative_path
  ∧ Parser._compute_url relative_path
    = Parser.SPARK_DOCS_BASE_URL +:+ "/"
      +:+ (if Str.endswith "sql-ref/syntax" ".html" then "sql-ref/syntax"
           else "sql-ref/syntax" +:+ ".html").
Proof.
  intros relative_path.
  assert (Hext : ".md" = ".md" ∨ ".md" = ".markdown") by (by left).
  assert (Hs : Parser.path_str relative_path = "sql-ref/syntax" +:+ ".md")
    by reflexivity.
  assert (Hno : ∀ k, (k < String.length "sql-ref/syntax")%nat →
      Str.startswith (Str.drop k (Parser.path_str relative_path)) ".md" = false
      ∧ Str.startswith (Str.drop k (Parser.path_str relative_path)) ".markdown"
        = false).
  { intros k Hk. do 14 (destruct k as [|k]; [by vm_compute|]).
    simpl in Hk. lia. }
  split; [exact Hext|]. split; [exact Hs|]. split; [exact Hno|].
  exact (url_as_specified_for_plain_names relative_path "sql-ref/syntax" ".md"
           Hext Hs Hno).
Defined.

Section CleanFacts.

Import Parser.

Implicit Types (s t pre : string) (c x : ascii).

Lemma contains_char c x s :
  Str.contains (String c "") (String x s)
  = bool_decide (c = x) || Str.contains (String c "") s.
Proof. cbn [Str.contains]. by rewrite startswith_char. Qed.

(** A pattern that begins with a character the text does not hold matches
    nowhere, and the substitution copies the text. *)
Lemma sub_copies (m : Re.matcher) c s :
  (∀ x t, x ≠ c → m (String x t) = None) →
  Str.contains (String c "") s = false →
  Re.sub m s = s.
Proof.
  intros Hm. induction s as [|x s IH]; [done|].
  rewrite contains_char. intros [Hx Hs]%orb_false_iff.
  apply bool_decide_eq_false in Hx.
  rewrite sub_step, Hm by congruence. by rewrite IH.
Qed.

Lemma delimited_first_char c open close (dotall : bool) x t :
  x ≠ c → Re.delimited (String c open) close dotall (String x t) = None.
Proof.
  intros Hx. unfold Re.delimited, Str.startswith. simpl.
  destruct (ascii_dec c x); [congruence|done].
Qed.

Lemma html_tag_first_char x t : x ≠ "<"%char → Re.html_tag (String x t) = None.
Proof.
  intros Hx. unfold Re.html_tag.
  destruct x as [[] [] [] [] [] [] [] []]; done.
Qed.

(** X11. Text that holds neither an opening brace nor a [<] goes through
    [_clean_content] untouched but for the white space stripped at its
    ends. *)
Theorem plain_text_is_only_stripped (content : string) :
  Str.contains "{" content = false →
  Str.contains "<" content = false →
  _clean_content content = Str.strip content.
Proof.
  intros Hbrace Hlt. unfold _clean_content, remove_liquid_tags,
    remove_liquid_outputs, remove_html_comments, remove_html_tags.
  rewrite (sub_copies Re.liquid_tag "{" content)
    by (done || apply delimited_first_char).
  rewrite (sub_copies Re.liquid_output "{" content)
    by (done || apply delimited_first_char).
  rewrite (sub_copies Re.html_comment "<" content)
    by (done || apply delimited_first_char).
  by rewrite (sub_copies Re.html_tag "<" content)
    by (done || apply html_tag_first_char).
Qed.

Lemma plain_text_is_only_stripped_witness :
  let content := "  Spark SQL guide " +:+ String Str.nl "" in
  Str.contains "{" content = false
  ∧ Str.contains "<" content = false
  ∧ _clean_content content = Str.strip content.
Proof.
  intros content.
  assert (Hbrace : Str.contains "{" content = false) by reflexivity.
  assert (Hlt : Str.contains "<" content = false) by reflexivity.
  split; [exact Hbrace|]. split; [exact Hlt|].
  exact (plain_text_is_only_stripped content Hbrace Hlt).
Defined.

Lemma lstrip_head s c t : Str.lstrip s = String c t → Str.is_space c = false.
Proof.
  induction s as [|x s IH]; simpl; [done|].
  destruct (Str.is_space x) eqn:Hx; [done|]. by intros [= <- _].
Qed.

Lemma rstrip_head s c t :
  Str.rstrip s = String c t → ∃ t', s = String c t'.
Proof.
  destruct s as [|x s]; simpl; [done|].
  destruct (Str.is_space x && Str.is_empty (Str.rstrip s)); [done|].
  intros [= <- _]. eauto.
Qed.

Lemma rstrip_last s pre c :
  Str.rstrip s = pre +:+ String c "" → Str.is_space c = false.
Proof.
  revert pre. induction s as [|x s IH]; intros pre; simpl.
  - by destruct pre.
  - destruct (Str.is_space x && Str.is_empty (Str.rstrip s)) eqn:Hx.
    + by destruct pre.
    + destruct pre as [|y pre]; rewrite ?append_cons.
      * intros [= -> Hs]. rewrite Hs in Hx. simpl in Hx.
        by rewrite andb_true_r in Hx.
      * intros [= _ Hs]. by apply (IH pre).
Qed.

Lemma rstrip_rstrip s : Str.rstrip (Str.rstrip s) = Str.rstrip s.
Proof.
  induction s as [|x s IH]; [done|]. cbn [Str.rstrip].
  destruct (Str.is_space x && Str.is_empty (Str.rstrip s)) eqn:Hx; [done|].
  cbn [Str.rstrip]. by rewrite IH, Hx.
Qed.

Lemma lstrip_fixed s :
  (∀ c t, s = String c t → Str.is_space c = false) → Str.lstrip s = s.
Proof.
  destruct s as [|x s]; [done|]. intros Hs. simpl.
  by rewrite (Hs x s eq_refl).
Qed.

(** X12. What [_clean_content] returns is trimmed: it neither begins nor
    ends with a white-space character, and stripping it again changes
    nothing. *)
Theorem cleaned_content_is_trimmed (content : string) :
  let cleaned := _clean_content content in
  (∀ c t, cleaned = String c t → Str.is_space c = false)
  ∧ (∀ pre c, cleaned = pre +:+ String c "" → Str.is_space c = false)
  ∧ Str.strip cleaned = cleaned.
Proof.
  unfold _clean_content.
  set (s := remove_html_tags _). simpl.
  assert (Hhead : ∀ c t, Str.strip s = String c t → Str.is_space c = false).
  { unfold Str.strip. intros c t Hct.
    destruct (rstrip_head _ _ _ Hct) as [t' Ht']. by eapply lstrip_head. }
  split_and!; [done| |].
  - intros pre c. unfold Str.strip. apply rstrip_last.
  - unfold Str.strip at 1. rewrite lstrip_fixed by done.
    unfold Str.strip. apply rstrip_rstrip.
Qed.

End CleanFacts.

Section ParseFileFacts.

Import Parser Pathlib.

Variable frontmatter_load : path → option (gmap string yaml * string).

Lemma strip_parts_Some (p base rel : path) :
  strip_parts p base = Some rel ↔ p = base ++ rel.
Proof.
  revert p. induction base as [|b base IH]; intros p.
  - simpl. split; [by intros [= ->]|by intros ->].
  - destruct p as [|x p]; simpl; [done|].
    destruct (decide (x = b)) as [->|Hne].
    + rewrite IH. split; [by intros ->|by intros [= ->]].
    + split; [done|]. by intros [= -> _].
Qed.

Lemma relative_to_Some (p base rel : path) :
  relative_to p base = Some rel → p = base ++ rel.
Proof.
  unfold relative_to. destruct base as [|b base].
  - destruct (is_absolute p); [done|]. by intros [= ->].
  - apply strip_parts_Some.
Qed.

(** [relative_to] and [str] on paths of both kinds: a file is under a base
    path of its own kind only, and an absolute file is not under the empty
    path. *)
Example relative_paths :
  relative_to ["/"; "a"; "b"] [] = None
  ∧ relative_to ["a"; "b"] [] = Some ["a"; "b"]
  ∧ relative_to ["/"; "a"; "b"] ["/"] = Some ["a"; "b"]
  ∧ relative_to ["/"; "a"; "b"] ["/"; "a"] = Some ["b"]
  ∧ relative_to ["/"; "a"; "b"] ["a"] = None
  ∧ relative_to ["a"; "b"] ["/"; "a"] = None
  ∧ relative_to ["a"] ["a"; "b"] = None
  ∧ relative_to ["//"; "a"; "b"] ["/"] = None
  ∧ relative_to ["a"; "b"] ["a"; "b"] = Some []
  ∧ path_str [] = "."
  ∧ path_str ["a"; "b"] = "a/b"
  ∧ path_str ["/"] = "/"
  ∧ path_str ["/"; "a"; "b"] = "/a/b"
  ∧ path_str ["//"; "a"; "b"] = "//a/b".
Proof. by vm_compute. Qed.

Lemma relative_to_drop (p base rel : path) :
  relative_to p base = Some rel → rel = drop (length base) p.
Proof. intros ->%relative_to_Some. by rewrite drop_app_length. Qed.

Lemma name_not_rooted (x : string) :
  is_name x → Str.startswith x "/" = false.
Proof.
  intros (_ & _ & Hx). destruct x as [|c x]; [done|].
  rewrite contains_char in Hx. apply orb_false_iff in Hx as [Hc _].
  by rewrite startswith_char.
Qed.

(** The string of a relative path made of names. *)
Lemma path_str_names (rel : path) :
  Forall is_name rel →
  path_str rel = match rel with [] => "." | _ => Str.join "/" rel end.
Proof.
  destruct rel as [|x rel]; [done|]. intros [Hx _]%Forall_cons.
  unfold path_str. by rewrite (name_not_rooted x Hx).
Qed.

Lemma first_component_name (x : string) :
  Str.contains "/" x = false → first_component x = None.
Proof.
  induction x as [|c x IH]; [done|]. rewrite contains_char.
  intros [Hc Hx]%orb_false_iff. apply bool_decide_eq_false in Hc. simpl.
  destruct (Ascii.eqb_spec c "/"); [congruence|]. by rewrite IH.
Qed.

Lemma first_component_append (x t : string) :
  Str.contains "/" x = false →
  first_component (x +:+ String "/" t) = Some x.
Proof.
  induction x as [|c x IH]; [done|]. rewrite contains_char.
  intros [Hc Hx]%orb_false_iff. apply bool_decide_eq_false in Hc.
  rewrite append_cons. simpl.
  destruct (Ascii.eqb_spec c "/"); [congruence|]. by rewrite IH.
Qed.

(** Joined names can be told apart: the string of a relative path made of
    names gives the path back. *)
Lemma join_names_inj (l1 l2 : path) :
  Forall is_name l1 → Forall is_name l2 →
  l1 ≠ [] → l2 ≠ [] →
  Str.join "/" l1 = Str.join "/" l2 → l1 = l2.
Proof.
  revert l2. induction l1 as [|x l1 IH]; intros l2 H1 H2 Hn1 Hn2; [done|].
  destruct l2 as [|y l2]; [done|].
  apply Forall_cons in H1 as [(Hx0 & Hxdot & Hx) H1].
  apply Forall_cons in H2 as [(Hy0 & Hydot & Hy) H2].
  assert (Hfirst : ∀ z l, Str.contains "/" z = false →
            first_component (Str.join "/" (z :: l))
            = match l with [] => None | _ => Some z end).
  { intros z [|w l] Hz; [by apply first_component_name|].
    change (Str.join "/" (z :: w :: l))
      with (z +:+ String "/" (Str.join "/" (w :: l))).
    by apply first_component_append. }
  intros Heq. pose proof (f_equal first_component Heq) as Hfc.
  rewrite !Hfirst in Hfc by done.
  destruct l1 as [|x' l1], l2 as [|y' l2]; try done.
  - simpl in Heq. by subst.
  - injection Hfc as ->. f_equal.
    change (y +:+ String "/" (Str.join "/" (x' :: l1))
            = y +:+ String "/" (Str.join "/" (y' :: l2))) in Heq.
    apply IH; [done|done|done|done|].
    clear -Heq. induction y as [|c y IHy]; simpl in Heq; [by injection Heq|].
    injection Heq as Heq. by apply IHy.
Qed.

Lemma path_str_names_inj (rel1 rel2 : path) :
  Forall is_name rel1 → Forall is_name rel2 →
  path_str rel1 = path_str rel2 → rel1 = rel2.
Proof.
  intros H1 H2. rewrite !path_str_names by done.
  assert (Hdot : ∀ l, Forall is_name l → l ≠ [] → Str.join "/" l ≠ ".").
  { intros [|x [|y l]] Hl Hne; [done| |].
    - apply Forall_cons in Hl as [(_ & Hx & _) _]. done.
    - apply Forall_cons in Hl as [(Hx & _ & _) _].
      change (Str.join "/" (x :: y :: l))
        with (x +:+ String "/" (Str.join "/" (y :: l))).
      intros Heq. apply (f_equal String.length) in Heq.
      rewrite length_append in Heq. destruct x; [done|]. simpl in Heq. lia. }
  destruct rel1 as [|x rel1], rel2 as [|y rel2]; [done| | |].
  - intros Heq. by destruct (Hdot (y :: rel2)).
  - intros Heq. by destruct (Hdot (x :: rel1)).
  - by apply join_names_inj.
Qed.

Lemma parse_file_path (file_path base_path : path) doc :
  parse_file frontmatter_load file_path base_path = Some doc →
  ∃ rel, relative_to file_path base_path = Some rel
         ∧ doc_path doc = path_str rel
         ∧ doc_section doc = _extract_section rel.
Proof.
  unfold parse_file.
  destruct (frontmatter_load file_path) as [[metadata body]|]; [|done]. simpl.
  destruct (relative_to file_path base_path) as [rel|]; [|done]. simpl.
  intros [= <-]. by exists rel.
Qed.

(** X13. The section of a parsed document can be read off its path: it is
    the text of the path before its first slash, and ["root"] when the path
    has no slash. This holds when the parts of the file below the base path
    are names, as [pathlib] keeps them. *)
Theorem section_is_first_directory (file_path base_path : path) doc :
  parse_file frontmatter_load file_path base_path = Some doc →
  Forall is_name (drop (length base_path) file_path) →
  doc_section doc = default "root" (first_component (doc_path doc)).
Proof.
  intros (rel & Hrel & -> & ->)%parse_file_path.
  rewrite <- (relative_to_drop _ _ _ Hrel). intros Hnames.
  rewrite path_str_names by done.
  destruct rel as [|x [|y rel]]; [done| |].
  - apply Forall_cons in Hnames as [(_ & _ & Hx) _].
    simpl. by rewrite first_component_name.
  - apply Forall_cons in Hnames as [(_ & _ & Hx) _].
    change (Str.join "/" (x :: y :: rel))
      with (x +:+ String "/" (Str.join "/" (y :: rel))).
    by rewrite first_component_append.
Qed.

Lemma parse_file_inj (file1 file2 base_path : path) doc1 doc2 :
  parse_file frontmatter_load file1 base_path = Some doc1 →
  parse_file frontmatter_load file2 base_path = Some doc2 →
  Forall is_name (drop (length base_path) file1) →
  Forall is_name (drop (length base_path) file2) →
  doc_path doc1 = doc_path doc2 →
  file1 = file2.
Proof.
  intros (rel1 & Hrel1 & -> & _)%parse_file_path
         (rel2 & Hrel2 & -> & _)%parse_file_path.
  rewrite <- (relative_to_drop _ _ _ Hrel1), <- (relative_to_drop _ _ _ Hrel2).
  intros H1 H2 Heq. apply relative_to_Some in Hrel1, Hrel2. subst.
  f_equal. by apply path_str_names_inj.
Qed.

(** X23. The path of a parsed document tells the files under one base path
    apart: two files whose documents have the same path are the same file
    and have the same document, when their parts below the base path are
    names. *)
Theorem parsed_paths_tell_files_apart (file1 file2 base_path : path) doc1 doc2 :
  parse_file frontmatter_load file1 base_path = Some doc1 →
  parse_file frontmatter_load file2 base_path = Some doc2 →
  Forall is_name (drop (length base_path) file1) →
  Forall is_name (drop (length base_path) file2) →
  doc_path doc1 = doc_path doc2 →
  file1 = file2 ∧ doc1 = doc2.
Proof.
  intros Hp1 Hp2 H1 H2 Heq.
  pose proof (parse_file_inj _ _ _ _ _ Hp1 Hp2 H1 H2 Heq) as ->.
  split; [done|]. congruence.
Qed.

End ParseFileFacts.

Lemma section_is_first_directory_witness :
  Parser.parse_file Sample.frontmatter_load Sample.syntax_file Sample.docs_path
  = Some Sample.syntax_doc
  ∧ Forall Pathlib.is_name (drop (length Sample.docs_path) Sample.syntax_file)
  ∧ doc_section Sample.syntax_doc
    = default "root" (Pathlib.first_component (doc_path Sample.syntax_doc)).
Proof.
  assert (Hparse : Parser.parse_file Sample.frontmatter_load Sample.syntax_file
                     Sample.docs_path = Some Sample.syntax_doc)
    by (vm_compute; reflexivity).
  assert (Hnames : Forall Pathlib.is_name
                     (drop (length Sample.docs_path) Sample.syntax_file))
    by (repeat constructor; discriminate).
  split; [exact Hparse|]. split; [exact Hnames|].
  exact (section_is_first_directory Sample.frontmatter_load Sample.syntax_file
           Sample.docs_path Sample.syntax_doc Hparse Hnames).
Defined.

Lemma parsed_paths_tell_files_apart_witness :
  Parser.parse_file Sample.frontmatter_load Sample.syntax_file Sample.docs_path
  = Some Sample.syntax_doc
  ∧ Forall Pathlib.is_name (drop (length Sample.docs_path) Sample.syntax_file)
  ∧ doc_path Sample.syntax_doc = doc_path Sample.syntax_doc
  ∧ Sample.syntax_file = Sample.syntax_file
  ∧ Sample.syntax_doc = Sample.syntax_doc.
Proof.
  assert (Hparse : Parser.parse_file Sample.frontmatter_load Sample.syntax_file
                     Sample.docs_path = Some Sample.syntax_doc)
    by (vm_compute; reflexivity).
  assert (Hnames : Forall Pathlib.is_name
                     (drop (length Sample.docs_path) Sample.syntax_file))
    by (repeat constructor; discriminate).
  assert (Hpath : doc_path Sample.syntax_doc = doc_path Sample.syntax_doc)
    by reflexivity.
  split; [exact Hparse|]. split; [exact Hnames|]. split; [exact Hpath|].
  exact (parsed_paths_tell_files_apart Sample.frontmatter_load
           Sample.syntax_file Sample.syntax_file Sample.docs_path
           Sample.syntax_doc Sample.syntax_doc Hparse Hparse Hnames Hnames
           Hpath).
Defined.

Section TitleFacts.

Import Parser.

Implicit Types (s : string) (c x : ascii) (b : bool).

Lemma length_map f s : String.length (Str.map f s) = String.length s.
Proof. induction s as [|x s IH]; simpl; [done|]. by rewrite IH. Qed.

Lemma length_title_go b s : String.length (Str.title_go b s) = String.length s.
Proof.
  revert b. induction s as [|x s IH]; intros b; simpl; [done|].
  destruct (Str.is_lower x); [|destruct (Str.is_upper x)]; simpl; by rewrite IH.
Qed.

Lemma to_upper_not_dash x :
  Str.is_lower x = true → Str.to_upper x ≠ "-"%char ∧ Str.to_upper x ≠ "_"%char.
Proof. destruct x as [[] [] [] [] [] [] [] []]; by vm_compute. Qed.

Lemma to_lower_not_dash x :
  Str.is_upper x = true → Str.to_lower x ≠ "-"%char ∧ Str.to_lower x ≠ "_"%char.
Proof. destruct x as [[] [] [] [] [] [] [] []]; by vm_compute. Qed.

Lemma title_go_no_dash c b s :
  c = "-"%char ∨ c = "_"%char →
  Str.contains (String c "") s = false →
  Str.contains (String c "") (Str.title_go b s) = false.
Proof.
  intros Hc. revert b. induction s as [|x s IH]; intros b; [done|].
  rewrite contains_char. intros [Hx Hs]%orb_false_iff.
  apply bool_decide_eq_false in Hx. cbn [Str.title_go].
  destruct (Str.is_lower x) eqn:Hlow; [|destruct (Str.is_upper x) eqn:Hup];
    rewrite contains_char, IH by done; rewrite orb_false_r;
    apply bool_decide_eq_false.
  - destruct b; [done|].
    destruct (to_upper_not_dash x Hlow), Hc; congruence.
  - destruct b; [|done].
    destruct (to_lower_not_dash x Hup), Hc; congruence.
  - done.
Qed.

Lemma map_dash_to_space_no_dash c s :
  c = "-"%char ∨ c = "_"%char →
  Str.contains (String c "") (Str.map Spec.dash_to_space s) = false.
Proof.
  intros Hc. induction s as [|x s IH]; [done|]. cbn [Str.map].
  rewrite contains_char, IH, orb_false_r. apply bool_decide_eq_false.
  unfold Spec.dash_to_space.
  destruct (Ascii.eqb_spec x "-"), (Ascii.eqb_spec x "_"), Hc; simpl; congruence.
Qed.

(** X14. A title taken from the file name, which is what a file gets whose
    frontmatter has no string title, is as long as the stem of the name and
    holds neither [-] nor [_], when the stem is made of ASCII characters. *)
Theorem filename_title_shape (metadata : gmap string yaml) (file_path : path) :
  as_str (metadata !! "title") = None →
  Str.is_ascii (path_stem file_path) = true →
  let title := md_title (_extract_metadata metadata file_path) in
  String.length title = String.length (path_stem file_path)
  ∧ Str.contains "-" title = false
  ∧ Str.contains "_" title = false.
Proof.
  intros Hnone _. unfold _extract_metadata. rewrite Hnone. cbn [md_title].
  rewrite replace_dashes. unfold Str.title. split_and!.
  - by rewrite length_title_go, length_map.
  - apply title_go_no_dash; [by left|].
    apply map_dash_to_space_no_dash. by left.
  - apply title_go_no_dash; [by right|].
    apply map_dash_to_space_no_dash. by right.
Qed.

Lemma filename_title_shape_witness :
  let metadata : gmap string yaml := {["title" := YInt 3]} in
  let file_path := ["tmp"; "sql_data-types.md"] in
  as_str (metadata !! "title") = None
  ∧ Str.is_ascii (path_stem file_path) = true
  ∧ let title := md_title (_extract_metadata metadata file_path) in
    String.length title = String.length (path_stem file_path)
    ∧ Str.contains "-" title = false
    ∧ Str.contains "_" title = false.
Proof.
  intros metadata file_path.
  assert (Hnone : as_str (metadata !! "title") = None) by reflexivity.
  assert (Hascii : Str.is_ascii (path_stem file_path) = true) by reflexivity.
  split; [exact Hnone|]. split; [exact Hascii|].
  exact (filename_title_shape metadata file_path Hnone Hascii).
Defined.

End TitleFacts.

(** ** More on the indexer *)

Section IndexerMore.

Import Parser Database MapView Indexer.

Variable path_exists : path → bool.
Variable rglob : path → string → list path.
Variable frontmatter_load : path → option (gmap string yaml * string).
Variable current_timestamp : nat → Z.

Abbreviation index_directory :=
  (_index_directory path_exists rglob frontmatter_load current_timestamp).
Abbreviation parsed := (parsed frontmatter_load).
Abbreviation upserts := (upserts current_timestamp).

Abbreviation md_files docs_path :=
  (rglob docs_path "*.md" ++ rglob docs_path "*.markdown").

Lemma index_directory_ok (st : state) (docs_path : path) :
  path_exists docs_path = true →
  ∃ st',
    index_directory st docs_path
    = (Ok (Z.of_nat (length (parsed docs_path (md_files docs_path)))), st')
    ∧ database st'
      = run (upserts (ticks st) (parsed docs_path (md_files docs_path)))
          (database st).
Proof.
  intros Hex. unfold _index_directory. rewrite Hex. simpl.
  destruct (index_files frontmatter_load current_timestamp docs_path
              (md_files docs_path)
              (logged (Info_found (length (md_files docs_path))) st) 0)
    as (st' & -> & Hdb & _).
  eexists. split; [done|]. simpl. by rewrite Hdb.
Qed.

Lemma index_directory_missing (st : state) (docs_path : path) :
  path_exists docs_path = false →
  index_directory st docs_path
  = (Raise (ValueError ("Documentation path does not exist: "
                        +:+ path_str docs_path)), st).
Proof. intros Hex. unfold _index_directory. by rewrite Hex. Qed.

(** What a run of upserts leaves under a path: the last document of the run
    with that path, or what was there. *)
Lemma after_upserts (docs : list Document) t0 (m : gmap string Document) p :
  after (upserts t0 docs) m !! p
  = match last (filter (λ doc, doc_path doc = p) docs) with
    | Some doc => Some doc
    | None => m !! p
    end.
Proof.
  revert t0 m. induction docs as [|doc docs IH]; intros t0 m; [done|].
  rewrite (upserts_cons current_timestamp). cbn [after foldl step].
  fold (after (upserts (S t0) docs) (<[doc_path doc:=doc]> m)).
  rewrite IH, filter_cons.
  destruct (decide (doc_path doc = p)) as [<-|Hne].
  - rewrite last_cons, lookup_insert_eq. by destruct (last _).
  - by rewrite lookup_insert_ne.
Qed.

Lemma upsert_present_length d doc now :
  is_Some (get_document d (doc_path doc)) →
  length (documents (upsert_document d doc now)) = length (documents d).
Proof.
  unfold get_document. intros [x Hx].
  destruct (list_find (has_path (doc_path doc)) (documents d))
    as [[i old]|] eqn:Hfind; [|done].
  destruct (upsert_existing d doc now i old Hfind) as [-> _].
  apply length_insert.
Qed.

Lemma upsert_length d doc now :
  (length (documents (upsert_document d doc now)) ≤ S (length (documents d)))%nat.
Proof.
  destruct (list_find (has_path (doc_path doc)) (documents d))
    as [[i old]|] eqn:Hfind.
  - destruct (upsert_existing d doc now i old Hfind) as [-> _].
    rewrite length_insert. lia.
  - destruct (upsert_fresh d doc now Hfind) as [-> _].
    rewrite length_app. simpl. lia.
Qed.

Lemma upserts_present_length (docs : list Document) t0 d :
  Forall (λ doc, is_Some (get_document d (doc_path doc))) docs →
  length (documents (run (upserts t0 docs) d)) = length (documents d).
Proof.
  revert t0 d. induction docs as [|doc docs IH]; intros t0 d Hall; [done|].
  apply Forall_cons in Hall as [Hdoc Hall].
  rewrite (upserts_cons current_timestamp). cbn [run foldl apply_op].
  fold (run (upserts (S t0) docs) (upsert_document d doc (current_timestamp t0))).
  rewrite IH; [by apply upsert_present_length|].
  eapply Forall_impl; [exact Hall|]. intros doc'. simpl.
  rewrite get_upsert. by destruct (decide _).
Qed.

Lemma upserts_length (docs : list Document) t0 d :
  (length (documents (run (upserts t0 docs) d))
   ≤ length (documents d) + length docs)%nat.
Proof.
  revert t0 d. induction docs as [|doc docs IH]; intros t0 d; [simpl; lia|].
  rewrite (upserts_cons current_timestamp). cbn [run foldl apply_op].
  fold (run (upserts (S t0) docs) (upsert_document d doc (current_timestamp t0))).
  etrans; [apply IH|].
  pose proof (upsert_length d doc (current_timestamp t0)). simpl. lia.
Qed.

(** X15. After a pass over an existing directory, each path the pass
    produced holds the document of the last file that produced it, every
    other path holds what it held before, and the store has grown by no more
    than the number the pass returns. *)
Theorem index_directory_stores_the_parsed (st : state) (docs_path : path)
    (p : string) :
  path_exists docs_path = true →
  ∃ n st',
    index_directory st docs_path = (Ok n, st')
    ∧ get_document (database st') p
      = match last (filter (λ doc, doc_path doc = p)
                      (parsed docs_path (md_files docs_path))) with
        | Some doc => Some doc
        | None => get_document (database st) p
        end
    ∧ get_document_count (database st') ≤ get_document_count (database st) + n.
Proof.
  intros Hex.
  destruct (index_directory_ok st docs_path Hex) as (st' & Hrun & Hdb).
  eexists _, st'. split; [exact Hrun|]. rewrite Hdb. split.
  - by rewrite <- !view_lookup, view_run, after_upserts.
  - unfold get_document_count.
    pose proof (upserts_length (parsed docs_path (md_files docs_path))
                  (ticks st) (database st)). lia.
Qed.

(** X16. Indexing the same tree again changes nothing a reader of the store
    can see: the second pass returns what the first returned, and after it
    every lookup and the count give what they gave after the first. *)
Theorem reindexing_is_idempotent (st : state) (docs_path : path) (p : string) :
  let '(r1, st1) := index_directory st docs_path in
  let '(r2, st2) := index_directory st1 docs_path in
  r2 = r1
  ∧ get_document (database st2) p = get_document (database st1) p
  ∧ get_document_count (database st2) = get_document_count (database st1).
Proof.
  destruct (path_exists docs_path) eqn:Hex.
  - destruct (index_directory_ok st docs_path Hex) as (st1 & Hrun1 & Hdb1).
    destruct (index_directory_ok st1 docs_path Hex) as (st2 & Hrun2 & Hdb2).
    rewrite Hrun1, Hrun2.
    set (docs := parsed docs_path (md_files docs_path)) in *.
    assert (Hget : ∀ t d p',
      get_document (run (upserts t docs) d) p'
      = match last (filter (λ doc, doc_path doc = p') docs) with
        | Some doc => Some doc
        | None => get_document d p'
        end).
    { intros t d p'. by rewrite <- !view_lookup, view_run, after_upserts. }
    split_and!; [done| |].
    + rewrite Hdb2, Hdb1, !Hget. by destruct (last _).
    + unfold get_document_count. f_equal. rewrite Hdb2.
      apply upserts_present_length. apply Forall_forall. intros doc Hdoc.
      rewrite Hdb1, Hget.
      destruct (last (filter (λ doc0, doc_path doc0 = doc_path doc) docs))
        eqn:Hlast; [done|].
      apply last_None in Hlast.
      assert (Hin : doc ∈ filter (λ doc0, doc_path doc0 = doc_path doc) docs)
        by (by apply list_elem_of_filter).
      rewrite Hlast in Hin. by apply elem_of_nil in Hin.
  - rewrite (index_directory_missing st docs_path Hex).
    rewrite (index_directory_missing st docs_path Hex). by split_and!.
Qed.

(** X24. Every file of a pass that parses can be read back afterwards:
    after a pass over an existing directory, the document of each file of
    the pass that parsed is what a lookup of its path returns. This holds
    when the parts of the files below the directory are names, as [pathlib]
    keeps them, for then no other file of the pass has the same path. *)
Theorem every_parsed_file_can_be_read (st : state)
    (docs_path file_path : path) (doc : Document) :
  path_exists docs_path = true →
  (∀ f, f ∈ md_files docs_path →
        Forall Pathlib.is_name (drop (length docs_path) f)) →
  file_path ∈ md_files docs_path →
  parse_file frontmatter_load file_path docs_path = Some doc →
  ∃ n st',
    index_directory st docs_path = (Ok n, st')
    ∧ get_document (database st') (doc_path doc) = Some doc.
Proof.
  intros Hex Hnames Hfile Hparse.
  destruct (index_directory_ok st docs_path Hex) as (st' & Hrun & Hdb).
  eexists _, st'. split; [exact Hrun|].
  rewrite Hdb, <- !view_lookup, view_run, after_upserts.
  set (docs := parsed docs_path (md_files docs_path)).
  assert (Hin : doc ∈ filter (λ doc0, doc_path doc0 = doc_path doc) docs).
  { apply list_elem_of_filter. split; [done|].
    apply list_elem_of_omap. by exists file_path. }
  destruct (last (filter (λ doc0, doc_path doc0 = doc_path doc) docs))
    as [doc'|] eqn:Hlast.
  - apply last_Some_elem_of, list_elem_of_filter in Hlast as [Hpath Hdoc'].
    apply list_elem_of_omap in Hdoc' as (f' & Hf' & Hparse').
    assert (f' = file_path) as ->
      by (eapply parse_file_inj; eauto).
    congruence.
  - apply last_None in Hlast. rewrite Hlast in Hin.
    by apply elem_of_nil in Hin.
Qed.

End IndexerMore.

Lemma every_parsed_file_can_be_read_witness :
  Sample.path_exists Sample.docs_path = true
  ∧ (∀ f, f ∈ Sample.rglob Sample.docs_path "*.md"
              ++ Sample.rglob Sample.docs_path "*.markdown" →
          Forall Pathlib.is_name (drop (length Sample.docs_path) f))
  ∧ Sample.syntax_file ∈ Sample.rglob Sample.docs_path "*.md"
                          ++ Sample.rglob Sample.docs_path "*.markdown"
  ∧ Parser.parse_file Sample.frontmatter_load Sample.syntax_file
      Sample.docs_path = Some Sample.syntax_doc
  ∧ ∃ n st',
      Indexer._index_directory Sample.path_exists Sample.rglob
        Sample.frontmatter_load Sample.current_timestamp Sample.fresh
        Sample.docs_path = (Ok n, st')
      ∧ Database.get_document (Indexer.database st')
          (doc_path Sample.syntax_doc) = Some Sample.syntax_doc.
Proof.
  assert (Hex : Sample.path_exists Sample.docs_path = true) by reflexivity.
  assert (Hnames : ∀ f, f ∈ Sample.rglob Sample.docs_path "*.md"
                            ++ Sample.rglob Sample.docs_path "*.markdown" →
            Forall Pathlib.is_name (drop (length Sample.docs_path) f)).
  { intros f Hf. vm_compute in Hf.
    repeat (apply elem_of_cons in Hf as [->|Hf];
            [repeat constructor; discriminate|]).
    by apply elem_of_nil in Hf. }
  assert (Hfile : Sample.syntax_file
                  ∈ Sample.rglob Sample.docs_path "*.md"
                    ++ Sample.rglob Sample.docs_path "*.markdown")
    by (vm_compute; apply list_elem_of_here).
  assert (Hparse : Parser.parse_file Sample.frontmatter_load Sample.syntax_file
                     Sample.docs_path = Some Sample.syntax_doc)
    by (vm_compute; reflexivity).
  split; [exact Hex|]. split; [exact Hnames|]. split; [exact Hfile|].
  split; [exact Hparse|].
  exact (every_parsed_file_can_be_read Sample.path_exists Sample.rglob
           Sample.frontmatter_load Sample.current_timestamp Sample.fresh
           Sample.docs_path Sample.syntax_file Sample.syntax_doc
           Hex Hnames Hfile Hparse).
Defined.

Lemma index_directory_stores_the_parsed_witness :
  Sample.path_exists Sample.docs_path = true
  ∧ ∃ n st',
      Indexer._index_directory Sample.path_exists Sample.rglob
        Sample.frontmatter_load Sample.current_timestamp Sample.fresh
        Sample.docs_path = (Ok n, st')
      ∧ Database.get_document (Indexer.database st') "sql-ref/syntax.md"
        = match last (filter (λ doc, doc_path doc = "sql-ref/syntax.md")
                        (Indexer.parsed Sample.frontmatter_load Sample.docs_path
                           (Sample.rglob Sample.docs_path "*.md"
                            ++ Sample.rglob Sample.docs_path "*.markdown"))) with
          | Some doc => Some doc
          | None =>
              Database.get_document (Indexer.database Sample.fresh)
                "sql-ref/syntax.md"
          end
      ∧ Database.get_document_count (Indexer.database st')
        ≤ Database.get_document_count (Indexer.database Sample.fresh) + n.
Proof.
  assert (Hex : Sample.path_exists Sample.docs_path = true) by reflexivity.
  split; [exact Hex|].
  exact (index_directory_stores_the_parsed Sample.path_exists Sample.rglob
           Sample.frontmatter_load Sample.current_timestamp Sample.fresh
           Sample.docs_path "sql-ref/syntax.md" Hex).
Defined.

(** ** Cloning and rebuilding *)

Section GitFacts.

Import Parser Database MapView Git.

Variable FS : Type.
Variable path_exists : FS → path → bool.
Variable rglob : FS → path → string → list path.
Variable frontmatter_load : FS → path → option (gmap string yaml * string).
Variable current_timestamp : nat → Z.
Variable mkdtemp : FS → path * FS.
Variable cleanup : path → FS → FS.
Variable subprocess_run : list string → FS → bool * FS.

Abbreviation clone := (_clone_repository FS subprocess_run).
Abbreviation index_directory :=
  (Git._index_directory FS path_exists rglob frontmatter_load current_timestamp).
Abbreviation index_from_git :=
  (Git.index_from_git FS path_exists rglob frontmatter_load current_timestamp
     mkdtemp cleanup subprocess_run).
Abbreviation rebuild_index :=
  (Git.rebuild_index FS path_exists rglob frontmatter_load current_timestamp
     mkdtemp cleanup subprocess_run).

(** Cloning writes to the log only; what it returns and what it leaves on
    the file system do not depend on the indexer's state. *)
Lemma clone_state target branch shallow (st : state) fs :
  database (clone target branch shallow st fs).1.2 = database st
  ∧ ticks (clone target branch shallow st fs).1.2 = ticks st.
Proof.
  unfold _clone_repository, run_checked.
  destruct (subprocess_run (clone_command _ _ _) fs) as [[] fs1]; [|done].
  destruct shallow; [|done].
  by destruct (subprocess_run (sparse_checkout_command _) fs1) as [[] fs2].
Qed.

Lemma clone_result target branch shallow (st1 st2 : state) fs :
  (clone target branch shallow st1 fs).1.1 = (clone target branch shallow st2 fs).1.1
  ∧ (clone target branch shallow st1 fs).2 = (clone target branch shallow st2 fs).2.
Proof.
  unfold _clone_repository, run_checked.
  destruct (subprocess_run (clone_command _ _ _) fs) as [[] fs1]; [|done].
  destruct shallow; [|done].
  by destruct (subprocess_run (sparse_checkout_command _) fs1) as [[] fs2].
Qed.

Lemma clone_fails target branch shallow (st : state) fs :
  (subprocess_run (clone_command target branch shallow) fs).1 = false →
  (clone target branch shallow st fs).1.1
  = Raised (CalledProcessError (clone_command target branch shallow)).
Proof.
  unfold _clone_repository, run_checked.
  destruct (subprocess_run (clone_command _ _ _) fs) as [[] fs1]; by simpl.
Qed.

Lemma failed_index_from_git (st : state) fs branch temp_dir fs1 :
  mkdtemp fs = (temp_dir, fs1) →
  (subprocess_run (clone_command (temp_dir ++ ["spark"]) branch true) fs1).1
  = false →
  (index_from_git st fs branch true).1.1
  = Raised (CalledProcessError (clone_command (temp_dir ++ ["spark"]) branch true))
  ∧ database (index_from_git st fs branch true).1.2 = database st.
Proof.
  intros Htmp Hfail. unfold Git.index_from_git. rewrite Htmp.
  pose proof (clone_fails (temp_dir ++ ["spark"]) branch true st fs1 Hfail)
    as Hr.
  pose proof (clone_state (temp_dir ++ ["spark"]) branch true st fs1)
    as [Hdb _].
  destruct (clone (temp_dir ++ ["spark"]) branch true st fs1)
    as [[r st'] fs']. simpl in Hr, Hdb. subst r. by simpl.
Qed.

Lemma failed_rebuild (st : state) fs branch temp_dir fs1 :
  mkdtemp fs = (temp_dir, fs1) →
  (subprocess_run (clone_command (temp_dir ++ ["spark"]) branch true) fs1).1
  = false →
  (rebuild_index st fs branch).1.1
  = Raised (CalledProcessError (clone_command (temp_dir ++ ["spark"]) branch true))
  ∧ database (rebuild_index st fs branch).1.2 = clear (database st).
Proof.
  intros Htmp Hfail. unfold Git.rebuild_index.
  set (st0 := {| database := clear (database (logged Info_clearing st)) |}).
  destruct (failed_index_from_git st0 fs branch temp_dir fs1 Htmp Hfail)
    as [Hr Hdb].
  split; [done|]. by rewrite Hdb.
Qed.

(** X17. When [git clone] exits with an error, [index_from_git] raises
    [CalledProcessError] and leaves the store as it was; [rebuild_index]
    raises the same error after it has cleared the store, which is then
    empty: no document can be looked up any more and the count is 0. *)
Theorem failed_clone (st : state) fs branch temp_dir fs1 (p : string) :
  mkdtemp fs = (temp_dir, fs1) →
  (subprocess_run (clone_command (temp_dir ++ ["spark"]) branch true) fs1).1
  = false →
  let error := CalledProcessError (clone_command (temp_dir ++ ["spark"]) branch true) in
  (index_from_git st fs branch true).1.1 = Raised error
  ∧ database (index_from_git st fs branch true).1.2 = database st
  ∧ (rebuild_index st fs branch).1.1 = Raised error
  ∧ database (rebuild_index st fs branch).1.2 = clear (database st)
  ∧ get_document (database (rebuild_index st fs branch).1.2) p = None
  ∧ get_document_count (database (rebuild_index st fs branch).1.2) = 0.
Proof.
  intros Htmp Hfail error.
  destruct (failed_index_from_git st fs branch temp_dir fs1 Htmp Hfail)
    as [Hgit Hkept].
  destruct (failed_rebuild st fs branch temp_dir fs1 Htmp Hfail)
    as [Hreb Hcleared].
  split_and!; [done|done|done|done| |]; by rewrite Hcleared.
Qed.

Lemma git_index_directory (st : state) fs docs_path :
  (path_exists fs docs_path = true
   ∧ ∃ docs,
       docs = Indexer.parsed (frontmatter_load fs) docs_path
                (rglob fs docs_path "*.md" ++ rglob fs docs_path "*.markdown")
       ∧ (index_directory st fs docs_path).1 = Returned (Z.of_nat (length docs))
       ∧ database (index_directory st fs docs_path).2
         = run (Indexer.upserts current_timestamp (ticks st) docs) (database st))
  ∨ (path_exists fs docs_path = false
     ∧ (index_directory st fs docs_path).1
       = Raised (Failed (ValueError ("Documentation path does not exist: "
                                      +:+ path_str docs_path)))
     ∧ database (index_directory st fs docs_path).2 = database st).
Proof.
  unfold Git._index_directory.
  destruct (path_exists fs docs_path) eqn:Hex; [left|right]; (split; [done|]).
  - destruct (index_directory_ok (path_exists fs) (rglob fs)
                (frontmatter_load fs) current_timestamp
                (Indexer.mkState (database st) [] (ticks st)) docs_path Hex)
      as (inner & -> & Hdb).
    eexists. split; [done|]. by split.
  - rewrite (index_directory_missing (path_exists fs) (rglob fs)
               (frontmatter_load fs) current_timestamp _ docs_path Hex).
    by split.
Qed.

(** X18. A rebuild forgets what the store held: from any two stores reached
    by sequences of operations, rebuilding from the same file system gives
    the same outcome, the same lookups and the same count. *)
Theorem rebuild_forgets (ops1 ops2 : list op) (st1 st2 : state) fs branch
    (p : string) :
  database st1 = run ops1 empty_db →
  database st2 = run ops2 empty_db →
  (rebuild_index st1 fs branch).1.1 = (rebuild_index st2 fs branch).1.1
  ∧ get_document (database (rebuild_index st1 fs branch).1.2) p
    = get_document (database (rebuild_index st2 fs branch).1.2) p
  ∧ get_document_count (database (rebuild_index st1 fs branch).1.2)
    = get_document_count (database (rebuild_index st2 fs branch).1.2).
Proof.
  intros Hdb1 Hdb2. unfold Git.rebuild_index, Git.index_from_git.
  destruct (mkdtemp fs) as [temp_dir fs1].
  set (c1 := {| database := clear (database (logged Info_clearing st1)) |}).
  set (c2 := {| database := clear (database (logged Info_clearing st2)) |}).
  pose proof (clone_result (temp_dir ++ ["spark"]) branch true c1 c2 fs1)
    as [Hr Hfs].
  pose proof (clone_state (temp_dir ++ ["spark"]) branch true c1 fs1)
    as [Hd1 Ht1].
  pose proof (clone_state (temp_dir ++ ["spark"]) branch true c2 fs1)
    as [Hd2 Ht2].
  destruct (clone (temp_dir ++ ["spark"]) branch true c1 fs1)
    as [[r1 s1] f1].
  destruct (clone (temp_dir ++ ["spark"]) branch true c2 fs1)
    as [[r2 s2] f2].
  simpl in Hr, Hfs, Hd1, Hd2, Ht1, Ht2. subst r2 f2.
  assert (Hwf : ∀ ops, well_formed (clear (run ops empty_db))).
  { intros ops. apply clear_well_formed, run_well_formed, empty_db_well_formed. }
  destruct r1 as [[]|e]; simpl.
  - set (docs_path := (temp_dir ++ ["spark"]) ++ [DOCS_PATH]).
    destruct (git_index_directory s1 f1 docs_path)
      as [(Hex & docs & Hdocs & Hres1 & Hrun1)|(Hex & Hres1 & Hrun1)];
    destruct (git_index_directory s2 f1 docs_path)
      as [(Hex' & docs' & Hdocs' & Hres2 & Hrun2)|(Hex' & Hres2 & Hrun2)];
      try congruence;
    destruct (index_directory s1 f1 docs_path) as [o1 s1'];
    destruct (index_directory s2 f1 docs_path) as [o2 s2'];
    simpl in *; subst.
    + split_and!; [done| |].
      * rewrite Hrun1, Hrun2, <- !view_lookup, !view_run.
        rewrite !(after_upserts current_timestamp). by rewrite Hd1, Hd2.
      * rewrite <- (Z2Nat.id (get_document_count _)); [|unfold get_document_count; lia].
        unfold get_document_count. rewrite Hrun1, Hrun2, Hd1, Hd2.
        rewrite Hdb1, Hdb2.
        rewrite <- !view_size
          by apply run_well_formed, Hwf.
        rewrite !view_run. rewrite !Nat2Z.id. f_equal. f_equal.
        apply map_eq. intros k. by rewrite !(after_upserts current_timestamp).
    + split_and!; [done| |]; rewrite Hrun1, Hrun2, Hd1, Hd2; done.
  - by rewrite Hd1, Hd2.
Qed.

End GitFacts.

Lemma failed_clone_witness :
  let st := Git.mkState Sample.two_docs [] 7 in
  let rebuilt :=
    Git.rebuild_index bool Sample.cloned_exists Sample.cloned_rglob
      Sample.cloned_load Sample.current_timestamp Sample.mkdtemp Sample.cleanup
      (Sample.git false) st false "master" in
  Sample.mkdtemp false = (Sample.tmp, false)
  ∧ (Sample.git false
       (Git.clone_command (Sample.tmp ++ ["spark"]) "master" true) false).1
    = false
  ∧ rebuilt.1.1
    = Git.Raised (Git.CalledProcessError
                    (Git.clone_command (Sample.tmp ++ ["spark"]) "master" true))
  ∧ Database.get_document_count (Git.database rebuilt.1.2) = 0.
Proof.
  intros st rebuilt.
  assert (Htmp : Sample.mkdtemp false = (Sample.tmp, false)) by reflexivity.
  assert (Hfail :
    (Sample.git false
       (Git.clone_command (Sample.tmp ++ ["spark"]) "master" true) false).1
    = false) by reflexivity.
  split; [exact Htmp|]. split; [exact Hfail|].
  pose proof (failed_clone bool Sample.cloned_exists Sample.cloned_rglob
                Sample.cloned_load Sample.current_timestamp Sample.mkdtemp
                Sample.cleanup (Sample.git false) st false "master"
                Sample.tmp false "doc1.md" Htmp Hfail)
    as (_ & _ & Hraised & _ & _ & Hcount).
  split; [exact Hraised|exact Hcount].
Defined.

Lemma rebuild_forgets_witness :
  let st1 := Git.mkState Sample.two_docs [] 7 in
  let st2 := Git.mkState Database.empty_db [] 0 in
  let rebuild :=
    Git.rebuild_index bool Sample.cloned_exists Sample.cloned_rglob
      Sample.cloned_load Sample.current_timestamp Sample.mkdtemp Sample.cleanup
      (Sample.git true) in
  Git.database st1
  = Database.run [Database.Upsert Sample.doc1 100; Database.Upsert Sample.doc2 101]
      Database.empty_db
  ∧ Git.database st2 = Database.run [] Database.empty_db
  ∧ (rebuild st1 false "master").1.1 = (rebuild st2 false "master").1.1
  ∧ Database.get_document (Git.database (rebuild st1 false "master").1.2) "doc1.md"
    = Database.get_document (Git.database (rebuild st2 false "master").1.2) "doc1.md"
  ∧ Database.get_document_count (Git.database (rebuild st1 false "master").1.2)
    = Database.get_document_count (Git.database (rebuild st2 false "master").1.2).
Proof.
  intros st1 st2 rebuild.
  assert (H1 : Git.database st1
    = Database.run [Database.Upsert Sample.doc1 100; Database.Upsert Sample.doc2 101]
        Database.empty_db) by reflexivity.
  assert (H2 : Git.database st2 = Database.run [] Database.empty_db)
    by reflexivity.
  split; [exact H1|]. split; [exact H2|].
  exact (rebuild_forgets bool Sample.cloned_exists Sample.cloned_rglob
           Sample.cloned_load Sample.current_timestamp Sample.mkdtemp
           Sample.cleanup (Sample.git true)
           [Database.Upsert Sample.doc1 100; Database.Upsert Sample.doc2 101] []
           st1 st2 false "master" "doc1.md" H1 H2).
Defined.

(** ** The server *)

Section ServerFacts.

Import Database MapView Server.

Variable fts5_match : string → option (fts_entry → bool).
Variable bm25 : list Q → string → list fts_entry → fts_entry → Q.
Variable snippet :
  string → fts_entry → nat → string → string → string → nat → string.
Variable round : Q → Z → Q.
Variable json_dumps : json → option Z → string.

Abbreviation search := (Database.search fts5_match bm25 snippet).
Abbreviation search_answer := (Server.search_answer fts5_match bm25 snippet round).

Lemma search_length d q section limit rs :
  0 ≤ limit → search d q section limit = Ok rs → Z.of_nat (length rs) ≤ limit.
Proof.
  intros Hl. unfold Database.search.
  destruct (fts5_match q) as [m|]; [|done]. intros [= <-].
  rewrite length_fmap. unfold Database.search_hits, sql_limit.
  rewrite (proj2 (Z.ltb_ge limit 0) Hl), length_take. lia.
Qed.

(** The answer to a well-formed query, and its bounds. *)
Lemma search_answer_Ok d q m section limit :
  fts5_match q = Some m →
  ∃ answer indent,
    search_answer d q section limit = Ok (answer, indent)
    ∧ (length (results_of answer) ≤ 50)%nat
    ∧ Z.of_nat (length (results_of answer)) ≤ Z.max 1 limit.
Proof.
  intros Hq. unfold Server.search_answer.
  destruct (search d q section (Z.min (Z.max 1 limit) 50)) as [rs|e] eqn:Hs;
    [|unfold Database.search in Hs; by rewrite Hq in Hs].
  apply search_length in Hs; [|lia].
  destruct rs as [|r rs]; eexists _, _; (split; [done|]).
  - simpl. lia.
  - cbn [results_of list_find]. simpl. rewrite length_fmap.
    simpl in Hs. lia.
Qed.

(** X19. The server bounds the limit: whatever limit is asked for, the
    answer is the one for that limit brought into the range from 1 to 50, so
    a limit of zero or below asks for one result, and no answer lists more
    than 50 results. A query FTS5 refuses makes the call fail with the error
    of the store; any other query is answered, by the serialised answer. *)
Theorem search_answer_is_bounded d sv q section limit :
  search_answer d q section limit
  = search_answer d q section (Z.min (Z.max 1 limit) 50)
  ∧ match fts5_match q with
    | None =>
        search_answer d q section limit = Raise OperationalError
        ∧ (_search_documentation_impl fts5_match bm25 snippet round
             json_dumps sv q section limit).1 = Raise OperationalError
    | Some _ =>
        (∃ answer indent,
           search_answer d q section limit = Ok (answer, indent)
           ∧ (length (results_of answer) ≤ 50)%nat
           ∧ Z.of_nat (length (results_of answer)) ≤ Z.max 1 limit)
        ∧ ∃ answer indent,
            (_search_documentation_impl fts5_match bm25 snippet round
               json_dumps sv q section limit).1
            = Ok (json_dumps answer indent)
            ∧ (length (results_of answer) ≤ 50)%nat
            ∧ Z.of_nat (length (results_of answer)) ≤ Z.max 1 limit
    end.
Proof.
  split.
  - unfold Server.search_answer.
    by replace (Z.min (Z.max 1 (Z.min (Z.max 1 limit) 50)) 50)
      with (Z.min (Z.max 1 limit) 50) by lia.
  - destruct (fts5_match q) as [m|] eqn:Hq.
    + split; [by eapply search_answer_Ok|].
      unfold _search_documentation_impl.
      destruct (get_database sv) as [d' sv'].
      destruct (search_answer_Ok d' q m section limit Hq)
        as (answer & indent & -> & Hbounds).
      by exists answer, indent.
    + assert (Hraise : ∀ d', search_answer d' q section limit
                             = Raise OperationalError).
      { intros d'. unfold Server.search_answer, Database.search.
        by rewrite Hq. }
      split; [apply Hraise|]. unfold _search_documentation_impl.
      destruct (get_database sv) as [d' sv']. by rewrite Hraise.
Qed.

(** What a read answers, on the store seen as a map. *)
Lemma read_answer_view d (p : string) :
  read_answer d p
  = match view d !! p with
    | Some document =>
        (JObject [
           ("path", JString (doc_path document));
           ("title", JString (doc_title document));
           ("description", json_of_option (doc_description document));
           ("section", JString (doc_section document));
           ("url", JString (doc_url document));
           ("content", JString (doc_content document))
         ], Some 2)
    | None =>
        (JObject [
           ("error", JString ("Document not found: " +:+ p));
           ("suggestion",
            JString "Use search_documentation to find valid document paths.")
         ], None)
    end.
Proof. unfold read_answer. by rewrite view_lookup. Qed.

(** A stored row is the one a lookup of its path finds. *)
Lemma get_document_of_row d (row : Database.row) :
  well_formed d → row ∈ documents d →
  get_document d (r_path row) = Some (document_of_row row).
Proof.
  intros Hwf Hrow. rewrite <- view_lookup. unfold view.
  apply elem_of_list_to_map_1.
  - rewrite <- list_fmap_compose. exact (wf_paths d Hwf).
  - apply list_elem_of_fmap. by exists row.
Qed.

Lemma elem_of_sql_limit {A} limit (l : list A) x : x ∈ sql_limit limit l → x ∈ l.
Proof.
  unfold sql_limit. destruct (limit <? 0); [done|].
  intros (i & Hi & _)%elem_of_take. by eapply list_elem_of_lookup_2.
Qed.

(** X20. What a search returns can be read: in a store reached by any
    sequence of operations, the path of each result of a search is the path
    of a stored document, the one last upserted under it; that document has
    the title, url and section the result shows, and reading the path
    answers with its six fields, never with the not-found object. *)
Theorem search_results_can_be_read (ops : list op) q section limit rs
    (r : SearchResult) :
  search (run ops empty_db) q section limit = Ok rs →
  r ∈ rs →
  ∃ document,
    after ops ∅ !! sr_path r = Some document
    ∧ get_document (run ops empty_db) (sr_path r) = Some document
    ∧ doc_path document = sr_path r
    ∧ doc_title document = sr_title r
    ∧ doc_url document = sr_url r
    ∧ doc_section document = sr_section r
    ∧ read_answer (run ops empty_db) (sr_path r)
      = (JObject [
           ("path", JString (sr_path r));
           ("title", JString (sr_title r));
           ("description", json_of_option (doc_description document));
           ("section", JString (sr_section r));
           ("url", JString (sr_url r));
           ("content", JString (doc_content document))
         ], Some 2).
Proof.
  pose proof (run_well_formed ops _ empty_db_well_formed) as Hwf.
  set (d := run ops empty_db) in *.
  unfold Database.search. destruct (fts5_match q) as [m|]; [|done].
  intros [= <-] (h & -> & Hh)%list_elem_of_fmap.
  unfold Database.search_hits in Hh. apply elem_of_sql_limit in Hh.
  rewrite elem_of_order_by_score, scanned_rows in Hh by done.
  apply list_elem_of_fmap in Hh as (row & -> & Hrow).
  apply list_elem_of_filter in Hrow as [_ Hrow].
  apply list_elem_of_filter in Hrow as [_ Hrow].
  pose proof (get_document_of_row d row Hwf Hrow) as Hget.
  exists (document_of_row row). simpl.
  split_and!; try done.
  - rewrite <- Hget, <- view_lookup. unfold d. rewrite view_run.
    by change (view empty_db) with (∅ : gmap string Document).
  - by rewrite read_answer_view, view_lookup, Hget.
Qed.

End ServerFacts.

Lemma search_results_can_be_read_witness :
  let ops := [Database.Upsert Sample.doc1 100; Database.Upsert Sample.doc2 101] in
  let d := Database.run ops Database.empty_db in
  let row := Database.inserted_row 1 Sample.doc2 101 in
  let r :=
    Database.result_of_hit
      (Database.select_hit Sample.bm25 Sample.snippet d "SQL"
         (Database.fts_values row, row)) in
  Database.search Sample.fts5_match Sample.bm25 Sample.snippet d "SQL" None 10
  = Ok [r]
  ∧ r ∈ [r]
  ∧ ∃ document,
      MapView.after ops ∅ !! sr_path r = Some document
      ∧ Database.get_document d (sr_path r) = Some document
      ∧ doc_path document = sr_path r
      ∧ doc_title document = sr_title r
      ∧ doc_url document = sr_url r
      ∧ doc_section document = sr_section r
      ∧ Server.read_answer d (sr_path r)
        = (Server.JObject [
             ("path", Server.JString (sr_path r));
             ("title", Server.JString (sr_title r));
             ("description", Server.json_of_option (doc_description document));
             ("section", Server.JString (sr_section r));
             ("url", Server.JString (sr_url r));
             ("content", Server.JString (doc_content document))
           ], Some 2).
Proof.
  intros ops d row r.
  assert (Hs : Database.search Sample.fts5_match Sample.bm25 Sample.snippet d
                 "SQL" None 10 = Ok [r]) by (vm_compute; reflexivity).
  assert (Hr : r ∈ [r]) by apply list_elem_of_here.
  split; [exact Hs|]. split; [exact Hr|].
  exact (search_results_can_be_read Sample.fts5_match Sample.bm25
           Sample.snippet ops "SQL" None 10 [r] r Hs Hr).
Defined.

(** ** The command line *)

Section CliFacts.

Import Parser Database Cli.

Variable FS : Type.
Variable path_exists : FS → path → bool.
Variable rglob : FS → path → string → list path.
Variable frontmatter_load : FS → path → option (gmap string yaml * string).
Variable current_timestamp : nat → Z.
Variable mkdtemp : FS → path * FS.
Variable cleanup : path → FS → FS.
Variable subprocess_run : list string → FS → bool * FS.
Variable mkdir : path → FS → FS.
Variable Path : string → path.
Variable DEFAULT_DB_PATH : path.

Abbreviation cmd_index :=
  (Cli.cmd_index FS path_exists rglob frontmatter_load current_timestamp
     mkdtemp cleanup subprocess_run mkdir Path DEFAULT_DB_PATH).
Abbreviation db_path_of := (Cli.db_path_of Path DEFAULT_DB_PATH).

(** X22. [cmd_index] with [--rebuild] on a failing clone destroys the
    index: the command raises, and the database file at the chosen path is
    left in place, cleared. *)
Theorem rebuild_with_failing_clone (a : args) (w : world FS) temp_dir fs1 :
  a_rebuild a = true →
  mkdtemp (mkdir (parent (db_path_of a)) (fs FS w)) = (temp_dir, fs1) →
  (subprocess_run
     (Git.clone_command (temp_dir ++ ["spark"]) (a_branch a) true) fs1).1 = false →
  (cmd_index a w).1
  = Git.Raised (Git.CalledProcessError
                  (Git.clone_command (temp_dir ++ ["spark"]) (a_branch a) true))
  ∧ files FS (cmd_index a w).2 !! db_path_of a
    = Some (clear (default empty_db (files FS w !! db_path_of a))).
Proof.
  intros Hreb Htmp Hfail. unfold Cli.cmd_index, open_database. rewrite Hreb.
  cbn [files fs log ticks logged].
  set (st := Git.mkState _ _ _).
  pose proof (failed_rebuild FS path_exists rglob frontmatter_load
                current_timestamp mkdtemp cleanup subprocess_run st
                (mkdir (parent (db_path_of a)) (fs FS w)) (a_branch a)
                temp_dir fs1 Htmp Hfail) as [Hr Hdb].
  destruct (Git.rebuild_index _ _ _ _ _ _ _ _ _ _ _) as [[r st'] fs'].
  simpl in Hr, Hdb. subst r. simpl. by rewrite lookup_insert_eq, Hdb.
Qed.

End CliFacts.

Lemma rebuild_with_failing_clone_witness :
  let db_path : list string := ["data"; "spark_docs.db"] in
  let a := Cli.mkArgs None "master" true in
  let w := Cli.mkWorld bool {[db_path := Sample.two_docs]} false [] 0 in
  let index :=
    Cli.cmd_index bool Sample.cloned_exists Sample.cloned_rglob
      Sample.cloned_load Sample.current_timestamp Sample.mkdtemp Sample.cleanup
      (Sample.git false) (λ _ fs, fs) (λ s, [s]) db_path in
  Cli.a_rebuild a = true
  ∧ Sample.mkdtemp false = (Sample.tmp, false)
  ∧ (Sample.git false
       (Git.clone_command (Sample.tmp ++ ["spark"]) "master" true) false).1
    = false
  ∧ (index a w).1
    = Git.Raised (Git.CalledProcessError
                    (Git.clone_command (Sample.tmp ++ ["spark"]) "master" true))
  ∧ Cli.files bool (index a w).2 !! db_path
    = Some (Database.clear (default Database.empty_db (Some Sample.two_docs))).
Proof.
  intros db_path a w index.
  assert (Hreb : Cli.a_rebuild a = true) by reflexivity.
  assert (Htmp : Sample.mkdtemp false = (Sample.tmp, false)) by reflexivity.
  assert (Hfail :
    (Sample.git false
       (Git.clone_command (Sample.tmp ++ ["spark"]) "master" true) false).1
    = false) by reflexivity.
  split; [exact Hreb|]. split; [exact Htmp|]. split; [exact Hfail|].
  exact (rebuild_with_failing_clone bool Sample.cloned_exists
           Sample.cloned_rglob Sample.cloned_load Sample.current_timestamp
           Sample.mkdtemp Sample.cleanup (Sample.git false) (λ _ fs, fs)
           (λ s, [s]) db_path a w Sample.tmp false Hreb Htmp Hfail).
Defined.
